(** * A.L.T.A-NVR: capture, recording, detection and retention

    A shallow embedding of the Python sources

      - [src/core/camera_manager.py]    (module [CameraManager])
      - [src/core/recording_manager.py] (module [RecordingManager])
      - [src/core/detection_engine.py]  (module [DetectionEngine])

    Integers are [Z], wall-clock readings ([time.time()], [datetime.now()])
    are inputs of the functions that read them, dictionaries keyed by camera
    id or by path are [gmap]s, and a raised exception is an explicit
    outcome. *)

From Stdlib Require Import ZArith QArith List Bool Lia Sorting.Sorted Permutation.
From stdpp Require Import gmap strings list sorting.

Local Open Scope Z_scope.

(** The longest prefix of [l] all of whose elements pass [p]. *)
Fixpoint take_while {A : Type} (p : A -> bool) (l : list A) : list A :=
  match l with
  | [] => []
  | x :: rest => if p x then x :: take_while p rest else []
  end.

(** ** [queue.Queue] as used by [CameraStream.frame_queue] *)

Module PyQueue.

Record Queue (A : Type) : Type := mkQueue {
  maxsize : Z;
  items : list A
}.
Arguments mkQueue {A} _ _.
Arguments maxsize {A} _.
Arguments items {A} _.

Section Ops.
Context {A : Type}.

Definition qsize (q : Queue A) : Z := Z.of_nat (length (items q)).

(** [Queue.full]: [0 < self.maxsize <= self._qsize()]. *)
Definition full (q : Queue A) : bool :=
  (0 <? maxsize q) && (maxsize q <=? qsize q).

(** [Queue.put_nowait]: [None] stands for [raise queue.Full]; the item
    goes to the right end of the deque. *)
Definition put_nowait (q : Queue A) (x : A) : option (Queue A) :=
  if full q then None
  else Some (mkQueue (maxsize q) (items q ++ [x])).

(** [Queue.get_nowait]: [None] stands for [raise queue.Empty]; the item
    comes from the left end of the deque. *)
Definition get_nowait (q : Queue A) : option (A * Queue A) :=
  match items q with
  | [] => None
  | x :: rest => Some (x, mkQueue (maxsize q) rest)
  end.
End Ops.

End PyQueue.

(** ** [src/core/camera_manager.py] *)

Module CameraManager.
Import PyQueue.

(** The handle returned by [cv2.VideoCapture(url)]; [isOpened] is what
    its method of that name answers. *)
Record VideoCapture : Type := mkCapture {
  cap_url : string;
  isOpened : bool
}.

(** [@dataclass CameraStream]; the [settings] dict is carried as its JSON
    text, no function below reads it. *)
Record CameraStream (Frame : Type) : Type := mkStream {
  camera_id : Z;
  url : string;
  name : string;
  enabled : bool;
  settings : string;
  capture : option VideoCapture;
  frame_queue : Queue Frame;
  is_running : bool;
  last_frame : option Frame;
  last_frame_time : Q;
  fps : Q;
  frame_count : Z
}.
Arguments mkStream {Frame} _ _ _ _ _ _ _ _ _ _ _ _.
Arguments camera_id {Frame} _.
Arguments url {Frame} _.
Arguments name {Frame} _.
Arguments enabled {Frame} _.
Arguments settings {Frame} _.
Arguments capture {Frame} _.
Arguments frame_queue {Frame} _.
Arguments is_running {Frame} _.
Arguments last_frame {Frame} _.
Arguments last_frame_time {Frame} _.
Arguments fps {Frame} _.
Arguments frame_count {Frame} _.

(** [CameraStream.__post_init__]: [queue.Queue(maxsize=30)]. *)
Definition new_frame_queue {Frame : Type} : Queue Frame := mkQueue 30 [].

(** The stream built by [add_camera]: every defaulted field at its
    dataclass default. *)
Definition new_stream {Frame : Type}
    (cid : Z) (u n : string) (en : bool) (s : string) : CameraStream Frame :=
  mkStream cid u n en s None new_frame_queue false None 0%Q 0%Q 0.

(** What the process does to the outside world, in program order. *)
Inductive effect : Type :=
  | EOpen (u : string)          (* cv2.VideoCapture(url) *)
  | ESetBufferSize              (* capture.set(CAP_PROP_BUFFERSIZE, 1) *)
  | EThreadStart (cid : Z)      (* threading.Thread(...).start() *)
  | ERead (cid : Z)             (* capture.read() *)
  | ESleep (secs : Z)           (* time.sleep(secs) *)
  | ELogError
  | ELogInfo.

Definition is_sleep (e : effect) : bool :=
  match e with ESleep _ => true | _ => false end.
Definition is_open (e : effect) : bool :=
  match e with EOpen _ => true | _ => false end.
Definition is_thread_start (e : effect) : bool :=
  match e with EThreadStart _ => true | _ => false end.

Section Capture.
Context {Frame : Type}.

(** Lines 158-163 of [_capture_thread]:
<<
    try:
        if not camera.frame_queue.full():
            camera.frame_queue.put_nowait(frame)
    except queue.Full:
        pass
>>  *)
Definition publish (q : Queue Frame) (frame : Frame) : Queue Frame :=
  if negb (full q) then
    match put_nowait q frame with
    | Some q' => q'
    | None => q            (* except queue.Full: pass *)
    end
  else q.

(** The queue after a run of frame arrivals, oldest arrival first. *)
Definition publish_all (q : Queue Frame) (frames : list Frame) : Queue Frame :=
  fold_left publish frames q.

(** The three ways [camera.capture.read()] can end. *)
Inductive read_outcome : Type :=
    | ReadOk (frame : Frame)      (* ret is True *)
    | ReadFailed                  (* ret is False *)
    | ReadRaised.                 (* an exception *)

Definition with_frame (c : CameraStream Frame) (frame : Frame) (t : Q)
    : CameraStream Frame :=
  mkStream (camera_id c) (url c) (name c) (enabled c) (settings c)
           (capture c) (frame_queue c) (is_running c)
           (Some frame) t (fps c) (frame_count c + 1).

Definition with_fps (c : CameraStream Frame) (f : Q) : CameraStream Frame :=
  mkStream (camera_id c) (url c) (name c) (enabled c) (settings c)
           (capture c) (frame_queue c) (is_running c)
           (last_frame c) (last_frame_time c) f (frame_count c).

Definition with_queue (c : CameraStream Frame) (q : Queue Frame)
    : CameraStream Frame :=
  mkStream (camera_id c) (url c) (name c) (enabled c) (settings c)
           (capture c) q (is_running c)
           (last_frame c) (last_frame_time c) (fps c) (frame_count c).

Definition with_capture (c : CameraStream Frame) (cap : option VideoCapture)
    (run : bool) : CameraStream Frame :=
  mkStream (camera_id c) (url c) (name c) (enabled c) (settings c)
           cap (frame_queue c) run
           (last_frame c) (last_frame_time c) (fps c) (frame_count c).

(** The [except Exception] handler of [_capture_thread]:
    [logger.error(...)] then [time.sleep(1)]. *)
Definition on_exception : list effect := [ELogError; ESleep 1].

(** One iteration of the [while] body of [_capture_thread] (lines
    145-167).  [r] is the outcome of [capture.read()], [t1] the value of
    [time.time()] on line 151 and [t2] its value on line 156 (read only
    on every 30th frame).  A zero divisor on line 156 raises
    [ZeroDivisionError], which the handler of line 165 catches after
    lines 150-152 have taken effect and before the frame is queued. *)
Definition capture_step (camera : CameraStream Frame) (r : read_outcome)
    (t1 t2 : Q) : CameraStream Frame * list effect :=
  match capture camera with
  | Some cap =>
    if isOpened cap then
      match r with
      | ReadRaised => (camera, ERead (camera_id camera) :: on_exception)
      | ReadFailed => (camera, [ERead (camera_id camera)])
      | ReadOk frame =>
        let c1 := with_frame camera frame t1 in
        if (frame_count c1 mod 30 =? 0)%Z then
          if Qeq_bool (t2 - last_frame_time c1) 0 then
            (c1, ERead (camera_id camera) :: on_exception)
          else
            let c2 := with_fps c1 (30 / (t2 - last_frame_time c1))%Q in
            (with_queue c2 (publish (frame_queue c2) frame),
             [ERead (camera_id camera)])
        else
          (with_queue c1 (publish (frame_queue c1) frame),
           [ERead (camera_id camera)])
      end
    else (camera, [])
  | None => (camera, [])
  end.

(** [_capture_thread]: the body is repeated while
    [camera.is_running and self.running]; one triple of the input list
    feeds one iteration. *)
Fixpoint capture_thread (running : bool) (camera : CameraStream Frame)
    (inputs : list (read_outcome * Q * Q))
    : CameraStream Frame * list effect :=
  match inputs with
  | [] => (camera, [])
  | (r, t1, t2) :: rest =>
    if is_running camera && running then
      let '(c', es) := capture_step camera r t1 t2 in
      let '(c'', es') := capture_thread running c' rest in
      (c'', es ++ es')
    else (camera, [])
  end.

(** [class CameraManager]: [self.cameras], [self.running] and the keys
    of [self._threads]. *)
Record Manager : Type := mkManager {
  cameras : gmap Z (CameraStream Frame);
  running : bool;
  threads : gset Z
}.

(** The three ways lines 96-97 ([cv2.VideoCapture(camera.url)] followed
    by [isOpened()]) can end. *)
Inductive open_outcome : Type :=
    | Opened
    | NotOpened
    | OpenRaised.

(** [CameraManager.start_camera] (lines 85-120): the manager afterwards,
    the returned bool and the effects performed. *)
Definition start_camera (mgr : Manager) (cid : Z) (o : open_outcome)
    : Manager * bool * list effect :=
  match cameras mgr !! cid with
  | None => (mgr, false, [])
  | Some camera =>
    if is_running camera then (mgr, true, [])
    else
      match o with
      | OpenRaised => (mgr, false, [EOpen (url camera); ELogError])
      | NotOpened =>
        let camera' :=
          with_capture camera (Some (mkCapture (url camera) false)) false in
        (mkManager (<[cid := camera']> (cameras mgr)) (running mgr)
                   (threads mgr),
         false, [EOpen (url camera); ELogError])
      | Opened =>
        let camera' :=
          with_capture camera (Some (mkCapture (url camera) true)) true in
        (mkManager (<[cid := camera']> (cameras mgr)) (running mgr)
                   ({[cid]} ∪ threads mgr),
         true,
         [EOpen (url camera); ESetBufferSize; EThreadStart cid; ELogInfo])
      end
  end.

(** A caller invoking [start_camera] once per listed outcome: the final
    manager, the returned bools and all effects, in order. *)
Fixpoint start_camera_calls (mgr : Manager) (cid : Z)
    (os : list open_outcome) : Manager * list bool * list effect :=
  match os with
  | [] => (mgr, [], [])
  | o :: rest =>
    let '(mgr1, b, es) := start_camera mgr cid o in
    let '(mgr2, bs, es') := start_camera_calls mgr1 cid rest in
    (mgr2, b :: bs, es ++ es')
  end.

(** The supervisor state the spec calls Running: the stream is marked
    running and its capture thread exists. *)
Definition camera_running (mgr : Manager) (cid : Z) : bool :=
  match cameras mgr !! cid with
  | Some camera => is_running camera && bool_decide (cid ∈ threads mgr)
  | None => false
  end.

End Capture.
Arguments Manager : clear implicits.
Arguments read_outcome : clear implicits.

(** [class Camera(Base)] of [database.py], one row of the [cameras] table;
    [cam_settings] is the nullable [Text] column. *)
Record Camera : Type := mkCamera {
  cam_id : Z;
  cam_name : string;
  cam_url : string;
  cam_enabled : bool;
  cam_settings : option string;
  cam_created_at : Z;
  cam_updated_at : Z
}.

(** The dict [get_camera_info] returns. *)
Record CameraInfo : Type := mkCameraInfo {
  ci_id : Z;
  ci_name : string;
  ci_url : string;
  ci_enabled : bool;
  ci_is_running : bool;
  ci_fps : Q;
  ci_frame_count : Z
}.

(** The calls [stop_camera] makes on the capture handle and the thread. *)
Inductive stop_effect : Type :=
| SRelease (u : string)       (* camera.capture.release() *)
| SJoin (cid : Z)             (* self._threads[camera_id].join(timeout=5) *)
| SLogInfo.

Section Lifecycle.
Context {Frame : Type}.

(** The frames of the reads that succeed, in order. *)
Definition frames_read (inputs : list (read_outcome Frame * Q * Q))
    : list Frame :=
  flat_map (fun i => match i.1.1 with ReadOk frame => [frame] | _ => [] end)
           inputs.

(** [CameraManager.stop_camera] (lines 122-138). *)
Definition stop_camera (mgr : Manager Frame) (cid : Z)
    : Manager Frame * list stop_effect :=
  match cameras mgr !! cid with
  | None => (mgr, [])
  | Some camera =>
    let released :=
      match capture camera with
      | Some cap => [SRelease (cap_url cap)]
      | None => []
      end in
    let joined :=
      if bool_decide (cid ∈ threads mgr) then [SJoin cid] else [] in
    (mkManager (<[cid := with_capture camera None false]> (cameras mgr))
               (running mgr) (threads mgr ∖ {[cid]}),
     released ++ joined ++ [SLogInfo])
  end.

(** [CameraManager.get_frame] (lines 169-173). *)
Definition get_frame (mgr : Manager Frame) (cid : Z) : option Frame :=
  match cameras mgr !! cid with
  | Some camera => last_frame camera
  | None => None
  end.

(** [CameraManager.get_camera_info] (lines 175-189). *)
Definition get_camera_info (mgr : Manager Frame) (cid : Z)
    : option CameraInfo :=
  match cameras mgr !! cid with
  | None => None
  | Some camera =>
    Some (mkCameraInfo (camera_id camera) (name camera) (url camera)
                       (enabled camera) (is_running camera) (fps camera)
                       (frame_count camera))
  end.

(** The capture thread of camera [cid] running through [inputs]: the
    thread works on the stream object it looked up in [self.cameras], so
    what it does shows in the manager. *)
Definition run_capture (mgr : Manager Frame) (cid : Z)
    (inputs : list (read_outcome Frame * Q * Q)) : Manager Frame :=
  match cameras mgr !! cid with
  | None => mgr
  | Some camera =>
    mkManager (<[cid := (capture_thread (running mgr) camera inputs).1]>
                 (cameras mgr))
              (running mgr) (threads mgr)
  end.

(** [CameraManager.add_camera] (lines 65-83).  [parses] tells whether
    [json.loads] accepts a settings text; when it does not, the exception
    leaves the function before the stream is registered.  The stream keeps
    the text of the settings, [{}] when the column is empty. *)
Definition add_camera (parses : string -> bool) (mgr : Manager Frame)
    (camera : Camera) (o : open_outcome)
    : option (Manager Frame * list effect) :=
  let settings_text :=
    match cam_settings camera with
    | Some s => if bool_decide (s = "") then Some "{}"
                else if parses s then Some s else None
    | None => Some "{}"
    end in
  match settings_text with
  | None => None
  | Some text =>
    let stream :=
      new_stream (cam_id camera) (cam_url camera) (cam_name camera)
                 (cam_enabled camera) text in
    let mgr1 :=
      mkManager (<[cam_id camera := stream]> (cameras mgr)) (running mgr)
                (threads mgr) in
    if cam_enabled camera then
      let '(mgr2, _, effs) := start_camera mgr1 (cam_id camera) o in
      Some (mgr2, effs)
    else Some (mgr1, [])
  end.

(** How [remove_camera] ends: it returns a bool, or the [db.commit()] of
    line 228 raises [IntegrityError]. *)
Inductive removal : Type :=
| Returned (ok : bool)
| CommitRaised.

(** [CameraManager.remove_camera] (lines 214-231) on the manager and the
    [cameras] table, keyed by primary key.  [referencing] lists the
    [camera_id] of every row of [recordings] and [events]: these columns
    are [NOT NULL] and the relationships of [Camera] have no cascade, so
    the commit that deletes a camera with such rows raises, after the
    camera has left [self.cameras]; the session is then closed and the row
    stays. *)
Definition remove_camera (mgr : Manager Frame) (table : gmap Z Camera)
    (referencing : list Z) (cid : Z)
    : removal * Manager Frame * gmap Z Camera :=
  match cameras mgr !! cid with
  | None => (Returned false, mgr, table)
  | Some _ =>
    let mgr1 := (stop_camera mgr cid).1 in
    let mgr2 :=
      mkManager (delete cid (cameras mgr1)) (running mgr1) (threads mgr1) in
    match table !! cid with
    | Some _ =>
      if bool_decide (cid ∈ referencing) then (CommitRaised, mgr2, table)
      else (Returned true, mgr2, delete cid table)
    | None => (Returned true, mgr2, table)
    end
  end.

(** [CameraManager.stop] (lines 48-53): [self.running = False], then
    [stop_camera] for every key of [self.cameras]. *)
Definition stop (mgr : Manager Frame) : Manager Frame :=
  foldl (fun m cid => (stop_camera m cid).1)
        (mkManager (cameras mgr) false (threads mgr))
        (elements (dom (cameras mgr))).

End Lifecycle.

End CameraManager.

(** ** [src/core/database.py] and [src/core/recording_manager.py] *)

Module RecordingManager.

(** A [datetime] is its number of microseconds since the epoch and a
    [timedelta] a number of microseconds. *)
Definition microseconds_per_second : Z := 1000000.
Definition timedelta_days (days : Z) : Z :=
  days * 86400 * microseconds_per_second.

(** [class Recording(Base)], one row of the [recordings] table.  The column
    default fills [created_at] with [datetime.utcnow()]; [start_time] and
    [end_time] come from [datetime.now()]. *)
Record Recording : Type := mkRecording {
  id : Z;
  camera_id : Z;
  start_time : Z;
  end_time : Z;
  file_path : string;
  file_size : Z;
  duration : Q;
  event_based : bool;
  motion_score : Q;
  created_at : Z
}.

(** A regular file: the size [stat().st_size] reports, and whether
    [unlink()] on it raises (any [OSError] of a file that exists). *)
Record File : Type := mkFile {
  st_size : Z;
  unlink_raises : bool
}.

(** The catalog (rows of [recordings] in insertion order) and the files on
    disk, keyed by path. *)
Record World : Type := mkWorld {
  catalog : list Recording;
  fs : gmap string File
}.

(** The configuration values the manager reads: [config.storage_path],
    [config.max_storage_gb] and [config.retention_days]. *)
Record Config : Type := mkConfig {
  storage_path : string;
  max_storage_gb : Q;
  retention_days : Z
}.

(** [path] is one of [self.storage_path.rglob('*')]. *)
Definition under_storage (cfg : Config) (path : string) : bool :=
  String.prefix (storage_path cfg ++ "/") path.

(** Lines 198-201: the sum of [st_size] over the files below the storage
    root. *)
Definition storage_usage (cfg : Config) (files : gmap string File) : Z :=
  map_fold (fun path f acc =>
              if under_storage cfg path then acc + st_size f else acc)
           0 files.

(** [query.order_by(Recording.created_at.asc())] and [.desc()]. *)
Definition created_le (a b : Recording) : Prop := created_at a <= created_at b.
Definition created_ge (a b : Recording) : Prop := created_at b <= created_at a.

#[export] Instance created_le_dec : RelDecision created_le :=
  fun a b => decide (created_at a <= created_at b).
#[export] Instance created_ge_dec : RelDecision created_ge :=
  fun a b => decide (created_at b <= created_at a).

Definition order_by_created_asc (rows : list Recording) : list Recording :=
  merge_sort created_le rows.
Definition order_by_created_desc (rows : list Recording) : list Recording :=
  merge_sort created_ge rows.

(** [db.commit()] after [db.delete(r)] for every [r] of [deleted]: the rows
    with those primary keys are gone. *)
Definition commit_deletes (rows deleted : list Recording) : list Recording :=
  filter (fun r => negb (bool_decide (id r ∈ map id deleted))) rows.

(** How a pass ends: [raised] tells whether an exception left the function
    (the session is then closed without a commit), [world] is the catalog
    and disk afterwards, [deleted] lists the rows handed to [db.delete], in
    order, and [unlinked] the paths removed from disk, in order. *)
Record PassResult : Type := mkResult {
  raised : bool;
  world : World;
  deleted : list Recording;
  unlinked : list string
}.

(** The [for recording in old_recordings] loop of lines 177-182, threading
    the disk and the rows marked so far. *)
Fixpoint cleanup_loop (rows : list Recording) (files : gmap string File)
    (marked : list Recording) (gone : list string)
    : bool * gmap string File * list Recording * list string :=
  match rows with
  | [] => (false, files, marked, gone)
  | recording :: rest =>
    match files !! file_path recording with
    | Some f =>
      if unlink_raises f then (true, files, marked, gone)
      else cleanup_loop rest (delete (file_path recording) files)
                        (marked ++ [recording]) (gone ++ [file_path recording])
    | None => cleanup_loop rest files (marked ++ [recording]) gone
    end
  end.

(** The rows selected on lines 173-175 at clock reading [now]. *)
Definition old_recordings (cfg : Config) (now : Z) (rows : list Recording)
    : list Recording :=
  let cutoff_date := now - timedelta_days (retention_days cfg) in
  filter (fun r => bool_decide (created_at r < cutoff_date)) rows.

(** [RecordingManager._cleanup_old_recordings] (lines 166-190); [now] is
    the value of [datetime.now()], compared as it is with the stored
    [created_at]. *)
Definition _cleanup_old_recordings (cfg : Config) (now : Z) (w : World)
    : PassResult :=
  let '(exn, files, marked, gone) :=
    cleanup_loop (old_recordings cfg now (catalog w)) (fs w) [] [] in
  if exn then mkResult true (mkWorld (catalog w) files) marked gone
  else mkResult false (mkWorld (commit_deletes (catalog w) marked) files)
                marked gone.

(** [max_size_gb * 1024 * 1024 * 1024]. *)
Definition max_size_bytes (cfg : Config) : Q :=
  (max_storage_gb cfg * 1024 * 1024 * 1024)%Q.

Definition within_limit (cfg : Config) (total_size : Z) : bool :=
  Qle_bool (inject_Z total_size) (max_size_bytes cfg).

(** The [for recording in recordings] loop of lines 212-223, threading
    [total_size], the disk and the rows marked so far. *)
Fixpoint enforce_loop (cfg : Config) (rows : list Recording) (total_size : Z)
    (files : gmap string File) (marked : list Recording) (gone : list string)
    : bool * Z * gmap string File * list Recording * list string :=
  match rows with
  | [] => (false, total_size, files, marked, gone)
  | recording :: rest =>
    if within_limit cfg total_size then
      (false, total_size, files, marked, gone)             (* break *)
    else
      match files !! file_path recording with
      | Some f =>
        if unlink_raises f then (true, total_size, files, marked, gone)
        else enforce_loop cfg rest (total_size - st_size f)
                          (delete (file_path recording) files)
                          (marked ++ [recording])
                          (gone ++ [file_path recording])
      | None => enforce_loop cfg rest total_size files (marked ++ [recording]) gone
      end
  end.

(** [RecordingManager._enforce_storage_limit] (lines 192-231). *)
Definition _enforce_storage_limit (cfg : Config) (w : World) : PassResult :=
  let total_size := storage_usage cfg (fs w) in
  if within_limit cfg total_size then mkResult false w [] []
  else
    let recordings := order_by_created_asc (catalog w) in
    let '(exn, _, files, marked, gone) :=
      enforce_loop cfg recordings total_size (fs w) [] [] in
    if exn then mkResult true (mkWorld (catalog w) files) marked gone
    else mkResult false (mkWorld (commit_deletes (catalog w) marked) files)
                  marked gone.

(** The value of [total_size] when the loop of [_enforce_storage_limit]
    is left. *)
Definition final_total_size (cfg : Config) (w : World) : Z :=
  let total_size := storage_usage cfg (fs w) in
  if within_limit cfg total_size then total_size
  else
    let '(_, total, _, _, _) :=
      enforce_loop cfg (order_by_created_asc (catalog w)) total_size (fs w) [] [] in
    total.

(** *** Vocabulary for stating what a pass did *)

(** [unlink()] on the file of [r], if it has one on [files], does not
    raise. *)
Definition deletable (files : gmap string File) (r : Recording) : bool :=
  match files !! file_path r with
  | Some f => negb (unlink_raises f)
  | None => true
  end.

(** The disk once the files of [rows] are gone. *)
Definition unlink_all (rows : list Recording) (files : gmap string File)
    : gmap string File :=
  foldl (fun fs_ r => delete (file_path r) fs_) files rows.

(** The running [total_size] of [_enforce_storage_limit] once the loop has
    gone through [rows]: the size of each file that was still there is
    taken off. *)
Fixpoint total_after (rows : list Recording) (total_size : Z)
    (files : gmap string File) : Z :=
  match rows with
  | [] => total_size
  | r :: rest =>
    match files !! file_path r with
    | Some f => total_after rest (total_size - st_size f)
                            (delete (file_path r) files)
    | None => total_after rest total_size files
    end
  end.

(** The primary key the database gives the next inserted row. *)
Definition next_id (rows : list Recording) : Z :=
  1 + fold_right Z.max 0 (map id rows).

(** [filepath.stat().st_size if filepath.exists() else 0] (line 114). *)
Definition size_on_disk (files : gmap string File) (filepath : string) : Z :=
  match files !! filepath with
  | Some f => st_size f
  | None => 0
  end.

(** [(end_time - start_time).total_seconds()] (line 106). *)
Definition total_seconds (delta : Z) : Q := delta # 1000000.

(** Lines 101-120 of [_recording_thread], the close of one segment:
    [start_time] and [end_time] are the readings of [datetime.now()] on
    lines 101 and 105, the disk of [w] is the one [_record_video] left
    behind, and [created] is the reading of [datetime.utcnow()] that fills
    [created_at].  The row is built and inserted as it is. *)
Definition register_segment (cid : Z) (is_event_based : bool)
    (filepath : string) (start_t end_t created : Z) (w : World) : World :=
  let recording :=
    mkRecording (next_id (catalog w)) cid start_t end_t filepath
                (size_on_disk (fs w) filepath)
                (total_seconds (end_t - start_t))
                is_event_based 0%Q created in
  mkWorld (catalog w ++ [recording]) (fs w).

(** One dict of the list [get_recordings] returns; the two [isoformat()]
    strings are kept as the timestamps they print. *)
Record RecordingInfo : Type := mkInfo {
  info_id : Z;
  info_camera_id : Z;
  info_start_time : Z;
  info_end_time : Z;
  info_file_path : string;
  info_file_size : Z;
  info_duration : Q;
  info_event_based : bool
}.

Definition to_info (r : Recording) : RecordingInfo :=
  mkInfo (id r) (camera_id r) (start_time r) (end_time r) (file_path r)
         (file_size r) (duration r) (event_based r).

(** Truth value of an [Optional[int]]: [None] and [0] are false. *)
Definition truthy (x : option Z) : bool :=
  match x with
  | None => false
  | Some n => negb (n =? 0)
  end.

(** [query.limit(limit).all()]: the statement ends in [LIMIT limit], and
    the SQLite catalog reads a negative [LIMIT] as no limit. *)
Definition sql_limit {A : Type} (limit : Z) (rows : list A) : list A :=
  if limit <? 0 then rows else take (Z.to_nat limit) rows.

(** The rows the query of [get_recordings] filters (lines 237-240). *)
Definition filtered_recordings (rows : list Recording) (cid : option Z)
    : list Recording :=
  if truthy cid
  then filter (fun r => bool_decide (Some (camera_id r) = cid)) rows
  else rows.

(** The rows [get_recordings] selects (lines 237-242). *)
Definition selected_recordings (rows : list Recording) (cid : option Z)
    (limit : Z) : list Recording :=
  sql_limit limit (order_by_created_desc (filtered_recordings rows cid)).

(** [RecordingManager.get_recordings] (lines 233-256). *)
Definition get_recordings (rows : list Recording) (cid : option Z)
    (limit : Z) : list RecordingInfo :=
  map to_info (selected_recordings rows cid limit).

(** The dict [get_storage_info] returns. *)
Record StorageInfo : Type := mkStorageInfo {
  total_size_bytes : Z;
  total_size_gb : Q;
  file_count : Z;
  info_max_size_gb : Q;
  info_retention_days : Z
}.

(** The number of files below the storage root (lines 263-266). *)
Definition count_files (cfg : Config) (files : gmap string File) : Z :=
  map_fold (fun path (_ : File) acc =>
              if under_storage cfg path then acc + 1 else acc)
           0 files.

(** [RecordingManager.get_storage_info] (lines 258-274). *)
Definition get_storage_info (cfg : Config) (files : gmap string File)
    : StorageInfo :=
  let total_size := storage_usage cfg files in
  mkStorageInfo total_size
                (inject_Z total_size / inject_Z (1024 ^ 3))%Q
                (count_files cfg files)
                (max_storage_gb cfg) (retention_days cfg).

(** One round of the [while] body of [_storage_cleanup_loop] (lines
    157-164): the age pass, then the capacity pass; an exception of the
    first one is caught by the handler of line 162, after which the round
    is over.  The bool tells whether an exception was logged. *)
Definition storage_cleanup_round (cfg : Config) (now : Z) (w : World)
    : bool * World :=
  let aged := _cleanup_old_recordings cfg now w in
  if raised aged then (true, world aged)
  else
    let enforced := _enforce_storage_limit cfg (world aged) in
    (raised enforced, world enforced).

(** What [_record_video] needs of a frame: [frame.shape[:2]], as (height,
    width), and [cv2.resize(frame, (width, height))]. *)
Class VideoFrame (Frame : Type) : Type := {
  frame_shape : Frame -> Z * Z;
  resize : Frame -> Z * Z -> Frame
}.

Section Recording.
Context {Frame : Type} `{VideoFrame Frame}.

(** The frame handed to [out.write] (lines 143-147). *)
Definition fit_frame (width height : Z) (frame : Frame) : Frame :=
  if bool_decide (frame_shape frame = (height, width)) then frame
  else resize frame (width, height).

(** The [while] loop of [_record_video] (lines 137-150) with
    [settings['fps'] = fps] and [settings['resolution'] = (width, height)]:
    each element of [polls] is what one test of the loop condition reads in
    [self.running] and what [get_frame] then answers; the result is the
    frames written, in order. *)
Fixpoint record_loop (fps width height : Z)
    (polls : list (bool * option Frame)) (frame_count : Z)
    (written : list Frame) : list Frame :=
  match polls with
  | [] => written
  | (is_on, frame) :: rest =>
    if is_on && (frame_count <? fps * 3600) then
      match frame with
      | Some f =>
        record_loop fps width height rest (frame_count + 1)
                    (written ++ [fit_frame width height f])
      | None => record_loop fps width height rest frame_count written
      end
    else written
  end.

(** [RecordingManager._record_video] (lines 128-152). *)
Definition _record_video (fps width height : Z)
    (polls : list (bool * option Frame)) : list Frame :=
  record_loop fps width height polls 0 [].

End Recording.

End RecordingManager.

(** ** [src/api/routes.py]: the download of a recording *)

Module Routes.
Import RecordingManager.

(** The two ways [download_recording] answers: [HTTPException(404)] with
    its detail, or a [StreamingResponse] of the file named in the row, with
    the recording id that goes into the file name of the attachment. *)
Inductive download_response : Type :=
| NotFound (detail : string)
| Streaming (path : string) (recording_id : Z).

(** [query(Recording).filter(Recording.id == recording_id).first()]. *)
Definition first_with_id (rows : list Recording) (recording_id : Z)
    : option Recording :=
  snd <$> list_find (fun r => id r = recording_id) rows.

(** [download_recording] (lines 135-154). *)
Definition download_recording (w : World) (recording_id : Z)
    : download_response :=
  match first_with_id (catalog w) recording_id with
  | None => NotFound "Recording not found"
  | Some recording =>
    match fs w !! file_path recording with
    | None => NotFound "Recording file not found"
    | Some _ => Streaming (file_path recording) recording_id
    end
  end.

End Routes.

(** ** [src/core/detection_engine.py] *)

Module DetectionEngine.

(** One element of [r.boxes]: [box.xyxy[0]], [box.conf[0]], [box.cls[0]]. *)
Record Box : Type := mkBox {
  xyxy : Q * Q * Q * Q;
  conf : Q;
  cls : Z
}.

(** The dict appended on lines 104-109. *)
Record Detection : Type := mkDetection {
  label : string;
  confidence : Q;
  bbox : Q * Q * Q * Q;
  area : Q
}.

(** [class Event(Base)], one row of the [events] table; [data] holds the
    detection whose [str()] the source stores. *)
Record Event : Type := mkEvent {
  ev_camera_id : Z;
  ev_recording_id : option Z;
  ev_event_type : string;
  ev_label : string;
  ev_confidence : Q;
  ev_start_time : Z;
  ev_end_time : Z;
  ev_data : Detection
}.

(** [config.detection_classes], [config.detection_confidence] and the two
    [motion.*] options with the defaults of lines 174 and 181. *)
Record Config : Type := mkConfig {
  detection_classes : list string;
  detection_confidence : Q;
  motion_min_area : Q;
  motion_sensitivity : Q
}.

Definition Qlt_bool (a b : Q) : bool := negb (Qle_bool b a).

(** Lines 98-109 for one box: [None] is the [KeyError] of
    [self.model.names[cls]]; [Some None] a box the filter of line 103
    rejects. *)
Definition detection_of_box (cfg : Config) (names : gmap Z string) (box : Box)
    : option (option Detection) :=
  match names !! cls box with
  | None => None
  | Some lbl =>
    if bool_decide (lbl ∈ detection_classes cfg)
       && Qle_bool (detection_confidence cfg) (conf box)
    then
      let '(x1, y1, x2, y2) := xyxy box in
      Some (Some (mkDetection lbl (conf box) (xyxy box)
                              ((x2 - x1) * (y2 - y1))%Q))
    else Some None
  end.

(** Lines 93-109: the boxes of every result, in order; a result whose
    [boxes] is [None] contributes nothing. *)
Fixpoint detections_of_boxes (cfg : Config) (names : gmap Z string)
    (boxes : list Box) : option (list Detection) :=
  match boxes with
  | [] => Some []
  | box :: rest =>
    match detection_of_box cfg names box with
    | None => None
    | Some d =>
      match detections_of_boxes cfg names rest with
      | None => None
      | Some ds => Some (match d with Some x => x :: ds | None => ds end)
      end
    end
  end.

Definition all_boxes (results : list (option (list Box))) : list Box :=
  flat_map (fun boxes => match boxes with Some bs => bs | None => [] end)
           results.

(** The [Event] built on lines 128-136 from one detection: [start_t] and
    [end_t] are the readings of [datetime.utcnow()] on lines 133 and
    134. *)
Definition event_of (cid : Z) (start_t end_t : Z) (d : Detection) : Event :=
  mkEvent cid None "object_detection" (label d) (confidence d)
          start_t end_t d.

(** [DetectionEngine._save_detection_event] (lines 121-145): one [Event]
    per detection, every one added to the session and committed.
    [clock k] is what the call number [k] of [datetime.utcnow()] during
    this call returns, counted from 0: the Event of the detection at
    position [i] reads [clock (2 * i)] and [clock (2 * i + 1)]. *)
Definition _save_detection_event (cid : Z) (clock : nat -> Z)
    (detections : list Detection) (events : list Event) : list Event :=
  events ++
  imap (fun i d => event_of cid (clock (2 * i)%nat) (clock (2 * i + 1)%nat) d)
       detections.

(** One iteration of the loop of [_detection_thread] (lines 79-119) once a
    camera manager is set: [frame_results] is [None] when [get_frame]
    gives no frame and otherwise what [self.model(frame, ...)] returns;
    [clock] is the clock of the call of [_save_detection_event]. *)
Definition detection_step (cfg : Config) (names : gmap Z string) (cid : Z)
    (clock : nat -> Z) (frame_results : option (list (option (list Box))))
    (events : list Event) : list Event :=
  match frame_results with
  | None => events
  | Some results =>
    match detections_of_boxes cfg names (all_boxes results) with
    | None => events                         (* except Exception: log, sleep *)
    | Some [] => events                      (* if detections: is false *)
    | Some detections => _save_detection_event cid clock detections events
    end
  end.

(** The rows one iteration adds to an empty table. *)
Definition emitted (cfg : Config) (names : gmap Z string) (cid : Z)
    (clock : nat -> Z) (frame_results : option (list (option (list Box))))
    : list Event :=
  detection_step cfg names cid clock frame_results [].

(** The event table after a run of iterations, each with its own
    clock. *)
Definition detection_thread (cfg : Config) (names : gmap Z string) (cid : Z)
    (passes : list ((nat -> Z) * option (list (option (list Box)))))
    (events : list Event) : list Event :=
  fold_left (fun evs p => detection_step cfg names cid (fst p) (snd p) evs)
            passes events.

(** *** Vocabulary for stating what a pass emits *)

(** Every box has a class id that [self.model.names] knows. *)
Definition all_named (names : gmap Z string) (boxes : list Box) : bool :=
  forallb (fun box => bool_decide (is_Some (names !! cls box))) boxes.

(** The filter of line 103 on a box whose class has the name [lbl]. *)
Definition passes_filter (cfg : Config) (lbl : string) (box : Box) : bool :=
  bool_decide (lbl ∈ detection_classes cfg)
  && Qle_bool (detection_confidence cfg) (conf box).

(** The dict of lines 104-109 for such a box. *)
Definition detection_from (lbl : string) (box : Box) : Detection :=
  let '(x1, y1, x2, y2) := xyxy box in
  mkDetection lbl (conf box) (xyxy box) ((x2 - x1) * (y2 - y1))%Q.

(** The detections of the boxes that have a named class and pass the
    filter, in the order of the boxes. *)
Definition accepted_detections (cfg : Config) (names : gmap Z string)
    (boxes : list Box) : list Detection :=
  omap (fun box =>
          match names !! cls box with
          | Some lbl => if passes_filter cfg lbl box
                        then Some (detection_from lbl box) else None
          | None => None
          end)
       boxes.

(** Two rows at positions of the table that concern the same camera and
    label and start less than [window] apart. *)
Definition too_close (window : Z) (e1 e2 : Event) : bool :=
  bool_decide (ev_camera_id e1 = ev_camera_id e2)
  && bool_decide (ev_label e1 = ev_label e2)
  && (Z.abs (ev_start_time e2 - ev_start_time e1) <? window).

(** No two rows of the table are [too_close]. *)
Fixpoint debounced (window : Z) (events : list Event) : bool :=
  match events with
  | [] => true
  | e :: rest => forallb (fun e' => negb (too_close window e e')) rest
                 && debounced window rest
  end.

(** The functions of [cv2] and the array attribute that [detect_motion]
    uses. *)
Class Cv2 (Image Contour : Type) : Type := {
  cvtColor_gray : Image -> Image;
  absdiff : Image -> Image -> Image;
  GaussianBlur21 : Image -> Image;
  threshold_binary : Image -> Z -> Z -> Image;
  dilate2 : Image -> Image;
  findContours_external : Image -> list Contour;
  contourArea : Contour -> Q;
  shape : Image -> Z * Z
}.

Inductive cv2_call : Type :=
| CvtColor | Absdiff | GaussianBlur | Threshold | Dilate | FindContours
| ContourArea.

Section Motion.
Context {Image Contour : Type} `{Cv2 Image Contour}.

(** Lines 172-175: the summed area of the contours larger than
    [motion.min_area]. *)
Definition motion_area_of (cfg : Config) (contours : list Contour) : Q :=
  fold_left (fun acc contour =>
               if Qlt_bool (motion_min_area cfg) (contourArea contour)
               then (acc + contourArea contour)%Q else acc)
            contours 0%Q.

Definition contour_calls (cfg : Config) (contours : list Contour)
    : list cv2_call :=
  flat_map (fun contour =>
              if Qlt_bool (motion_min_area cfg) (contourArea contour)
              then [ContourArea; ContourArea] else [ContourArea])
           contours.

(** [DetectionEngine.detect_motion] (lines 147-183): the returned pair and
    the [cv2] calls made, in order.  A frame that [is None] is [None]. *)
Definition detect_motion (cfg : Config) (frame1 frame2 : option Image)
    : (bool * Q) * list cv2_call :=
  match frame1, frame2 with
  | Some f1, Some f2 =>
    let gray1 := cvtColor_gray f1 in
    let gray2 := cvtColor_gray f2 in
    let diff := absdiff gray1 gray2 in
    let blur := GaussianBlur21 diff in
    let thresh := threshold_binary blur 25 255 in
    let dilated := dilate2 thresh in
    let contours := findContours_external dilated in
    let motion_area := motion_area_of cfg contours in
    let total_area := fst (shape f1) * snd (shape f1) in
    let motion_score :=
      if 0 <? total_area then (motion_area / inject_Z total_area)%Q
      else 0%Q in
    let motion_detected := Qlt_bool (motion_sensitivity cfg) motion_score in
    ((motion_detected, motion_score),
     [CvtColor; CvtColor; Absdiff; GaussianBlur; Threshold; Dilate;
      FindContours] ++ contour_calls cfg contours)
  | _, _ => ((false, 0%Q), [])
  end.

(** The contours [detect_motion] finds between two frames (lines
    152-169). *)
Definition motion_contours (frame1 frame2 : Image) : list Contour :=
  findContours_external
    (dilate2 (threshold_binary
                (GaussianBlur21 (absdiff (cvtColor_gray frame1)
                                         (cvtColor_gray frame2)))
                25 255)).

End Motion.

End DetectionEngine.

(** ** [src/websocket/server.py] *)

Module WebSocketManager.

(** [websocket.client], a host and a port. *)
Abbreviation Address := (string * Z)%type.

(** A [WebSocket] object: the address of its peer and the identity of the
    object. *)
Record WebSocket : Type := mkWebSocket {
  client : Address;
  socket : nat
}.

(** [self.active_connections]: a dict, as the list of its items in
    insertion order. *)
Abbreviation Connections := (list (Address * WebSocket)).

(** [d[key] = value]: an existing key keeps its place, a new one goes to
    the end. *)
Fixpoint dict_set (key : Address) (value : WebSocket) (d : Connections)
    : Connections :=
  match d with
  | [] => [(key, value)]
  | (k, v) :: rest =>
    if bool_decide (k = key) then (k, value) :: rest
    else (k, v) :: dict_set key value rest
  end.

(** [del d[key]]: [None] stands for [KeyError]. *)
Fixpoint dict_del (key : Address) (d : Connections) : option Connections :=
  match d with
  | [] => None
  | (k, v) :: rest =>
    if bool_decide (k = key) then Some rest
    else cons (k, v) <$> dict_del key rest
  end.

(** [d.get(key)]. *)
Fixpoint dict_get (key : Address) (d : Connections) : option WebSocket :=
  match d with
  | [] => None
  | (k, v) :: rest =>
    if bool_decide (k = key) then Some v else dict_get key rest
  end.

(** [WebSocketManager.connect] (lines 7-9), once [accept()] has
    returned. *)
Definition connect (d : Connections) (websocket : WebSocket) : Connections :=
  dict_set (client websocket) websocket d.

(** [WebSocketManager.disconnect] (lines 11-12). *)
Definition disconnect (d : Connections) (websocket : WebSocket)
    : option Connections :=
  dict_del (client websocket) d.

(** [WebSocketManager.send_message] (lines 14-16): [accepts] tells for
    which sockets [send_text] returns; the result lists the sockets that
    were sent the message, in order, and tells whether a [send_text]
    raised, which ends the loop. *)
Fixpoint send_message (accepts : WebSocket -> bool) (d : Connections)
    : list nat * bool :=
  match d with
  | [] => ([], false)
  | (_, connection) :: rest =>
    if accepts connection then
      let '(sent, exn) := send_message accepts rest in
      (socket connection :: sent, exn)
    else ([], true)
  end.

End WebSocketManager.

(** * Concrete inputs used by the examples below *)

Module Scenario.
Import PyQueue CameraManager.

(** A registered camera whose capture has been opened. *)
Definition live_camera : CameraStream Z :=
  with_capture (new_stream 1 "rtsp://10.0.0.7/stream" "gate" true "{}")
               (Some (mkCapture "rtsp://10.0.0.7/stream" true)) true.

(** Frames 1..30 arriving one second apart, frame [i] at second [i]; the
    second clock reading of an iteration comes one millisecond after the
    first. *)
Definition one_per_second : list (read_outcome Z * Q * Q) :=
  map (fun i => (ReadOk i, inject_Z i, (inject_Z i + (1 # 1000))%Q)) (seqZ 1 30).

(** A manager holding one registered camera that has not been started. *)
Definition one_camera : Manager Z :=
  mkManager {[ 1 := new_stream 1 "rtsp://10.0.0.7/stream" "gate" true "{}" ]}
            true ∅.

(** Age eviction: recordings created at day 0, day 6 and day 8, each with
    its file, under a retention of 7 days. *)
Definition day (n : Z) : Z := RecordingManager.timedelta_days n.

Definition age_cfg : RecordingManager.Config :=
  RecordingManager.mkConfig "/var/nvr" 500 7.

Definition rec_day (n k : Z) (path : string) : RecordingManager.Recording :=
  RecordingManager.mkRecording n 1 (day k) (day k + 60000000) path 4096
                               60 false 0 (day k).

Definition age_world : RecordingManager.World :=
  RecordingManager.mkWorld
    [rec_day 1 0 "/var/nvr/1/d0.mp4"; rec_day 2 6 "/var/nvr/1/d6.mp4";
     rec_day 3 8 "/var/nvr/1/d8.mp4"]
    (list_to_map
       [("/var/nvr/1/d0.mp4", RecordingManager.mkFile 4096 false);
        ("/var/nvr/1/d6.mp4", RecordingManager.mkFile 4096 false);
        ("/var/nvr/1/d8.mp4", RecordingManager.mkFile 4096 false)]).

(** The same three recordings, with a file of the oldest one that cannot
    be unlinked. *)
Definition locked_world : RecordingManager.World :=
  RecordingManager.mkWorld
    (RecordingManager.catalog age_world)
    (<[ "/var/nvr/1/d0.mp4" := RecordingManager.mkFile 4096 true ]>
       (RecordingManager.fs age_world)).

(** The same three recordings, all past retention at day 30, with a file
    of the second one that cannot be unlinked. *)
Definition stuck_world : RecordingManager.World :=
  RecordingManager.mkWorld
    (RecordingManager.catalog age_world)
    (<[ "/var/nvr/1/d6.mp4" := RecordingManager.mkFile 4096 true ]>
       (RecordingManager.fs age_world)).

(** Capacity eviction: a limit of 100 MB and the recordings A, B, C of
    40 MB each, created in that order. *)
Definition MB : Z := 1024 * 1024.

Definition quota_cfg : RecordingManager.Config :=
  RecordingManager.mkConfig "/var/nvr" (100 # 1024) 7.

Definition rec_sized (n : Z) (path : string) : RecordingManager.Recording :=
  RecordingManager.mkRecording n 1 (day n) (day n + 60000000) path (40 * MB)
                               60 false 0 (day n).

Definition quota_world : RecordingManager.World :=
  RecordingManager.mkWorld
    [rec_sized 1 "/var/nvr/1/A.mp4"; rec_sized 2 "/var/nvr/1/B.mp4";
     rec_sized 3 "/var/nvr/1/C.mp4"]
    (list_to_map
       [("/var/nvr/1/A.mp4", RecordingManager.mkFile (40 * MB) false);
        ("/var/nvr/1/B.mp4", RecordingManager.mkFile (40 * MB) false);
        ("/var/nvr/1/C.mp4", RecordingManager.mkFile (40 * MB) false)]).

(** A segment recorded across the end of daylight saving time: the naive
    local clock reads 02:30 when the segment starts and 02:10 when it is
    closed forty minutes later. *)
Definition minutes (n : Z) : Z := n * 60 * 1000000.

Definition dst_start : Z := day 300 + minutes 150.
Definition dst_end : Z := day 300 + minutes 130.

Definition dst_world : RecordingManager.World :=
  RecordingManager.mkWorld
    []
    {[ "/var/nvr/1/2025-10-26/1_02-30-00.mp4" :=
         RecordingManager.mkFile 7340032 false ]}.

(** Recordings of two cameras, none of a camera 0. *)
Definition rec_of_camera (n cam k : Z) : RecordingManager.Recording :=
  RecordingManager.mkRecording n cam (day k) (day k + 60000000)
                               "/var/nvr/x.mp4" 4096 60 false 0 (day k).

Definition two_cameras : list RecordingManager.Recording :=
  [rec_of_camera 1 1 1; rec_of_camera 2 2 2; rec_of_camera 3 1 3;
   rec_of_camera 4 2 4].

(** Detection: one person in front of camera 1, seen by the passes at
    seconds 0, 3 and 6. *)
Definition seconds (n : Z) : Z := n * 1000000.

Definition det_cfg : DetectionEngine.Config :=
  DetectionEngine.mkConfig ["person"; "car"] (1 # 2) 500 (2 # 100).

Definition names : gmap Z string := {[ 0 := "person"; 2 := "car" ]}.

Definition person_box : DetectionEngine.Box :=
  DetectionEngine.mkBox (10, 20, 110, 220)%Q (9 # 10) 0.

(** The clock of a pass that starts at second [t]: the call number [k]
    of [datetime.utcnow()] returns [k] microseconds later. *)
Definition clock_at (t : Z) : nat -> Z := fun k => seconds t + Z.of_nat k.

Definition person_at (t : Z)
    : (nat -> Z) * option (list (option (list DetectionEngine.Box))) :=
  (clock_at t, Some [Some [person_box]]).

(** A [cv2] that sees nothing: images are their shapes, contours their
    areas. *)
Definition blind_cv2 : DetectionEngine.Cv2 (Z * Z) Q :=
  {| DetectionEngine.cvtColor_gray := fun img => img;
     DetectionEngine.absdiff := fun a _ => a;
     DetectionEngine.GaussianBlur21 := fun img => img;
     DetectionEngine.threshold_binary := fun img _ _ => img;
     DetectionEngine.dilate2 := fun img => img;
     DetectionEngine.findContours_external := fun _ => [];
     DetectionEngine.contourArea := fun c => c;
     DetectionEngine.shape := fun img => img |}.

(** A running manager whose only camera is open and has read nothing
    yet, and a run of reads: two that succeed, one that fails and one that
    raises. *)
Definition live_manager : Manager Z :=
  mkManager {[ 1 := live_camera ]} true {[ 1 ]}.

Definition mixed_reads : list (read_outcome Z * Q * Q) :=
  [(ReadOk 7, 1%Q, 1%Q); (ReadFailed, 2%Q, 2%Q); (ReadOk 9, 3%Q, 3%Q);
   (ReadRaised, 4%Q, 4%Q)].

(** A [cv2] that finds, between any two frames, contours of the areas
    given. *)
Definition cv2_finding (areas : list Q) : DetectionEngine.Cv2 (Z * Z) Q :=
  {| DetectionEngine.cvtColor_gray := fun img => img;
     DetectionEngine.absdiff := fun a _ => a;
     DetectionEngine.GaussianBlur21 := fun img => img;
     DetectionEngine.threshold_binary := fun img _ _ => img;
     DetectionEngine.dilate2 := fun img => img;
     DetectionEngine.findContours_external := fun _ => areas;
     DetectionEngine.contourArea := fun c => c;
     DetectionEngine.shape := fun img => img |}.

(** Two sockets of one peer address and one of another. *)
Definition peer_a1 : WebSocketManager.WebSocket :=
  WebSocketManager.mkWebSocket ("10.0.0.20", 51000) 1.
Definition peer_a2 : WebSocketManager.WebSocket :=
  WebSocketManager.mkWebSocket ("10.0.0.20", 51000) 2.
Definition peer_b : WebSocketManager.WebSocket :=
  WebSocketManager.mkWebSocket ("10.0.0.21", 40000) 3.

End Scenario.

(** * Properties of the capture loop *)

Section FrameQueue.
Import PyQueue CameraManager.
Context {Frame : Type}.
Implicit Types (q : Queue Frame) (frame : Frame) (frames : list Frame).

Lemma put_nowait_when_not_full q frame :
  full q = false ->
  put_nowait q frame = Some (mkQueue (maxsize q) (items q ++ [frame])).
Proof. intros Hfull. unfold put_nowait. by rewrite Hfull. Qed.

Lemma publish_unfold q frame :
  publish q frame =
  if full q then q else mkQueue (maxsize q) (items q ++ [frame]).
Proof.
  unfold publish. destruct (full q) eqn:Hfull; simpl; [done|].
  by rewrite put_nowait_when_not_full.
Qed.

Lemma publish_maxsize q frame : maxsize (publish q frame) = maxsize q.
Proof. rewrite publish_unfold. by destruct (full q). Qed.

Lemma full_capacity_30 q :
  maxsize q = 30 -> full q = bool_decide (30 <= length (items q))%nat.
Proof.
  intros Hmax. unfold full, qsize. rewrite Hmax. simpl.
  case_bool_decide; [apply Z.leb_le | apply Z.leb_gt]; lia.
Qed.

Lemma publish_items_30 q frame :
  maxsize q = 30 -> (length (items q) <= 30)%nat ->
  items (publish q frame) = take 30 (items q ++ [frame]).
Proof.
  intros Hmax Hlen. rewrite publish_unfold, full_capacity_30 by done.
  case_bool_decide; simpl.
  - rewrite take_app_le by lia. by rewrite take_ge by lia.
  - rewrite take_ge; [done|]. rewrite length_app. simpl. lia.
Qed.

Lemma publish_all_items_30 frames : forall q,
  maxsize q = 30 -> (length (items q) <= 30)%nat ->
  maxsize (publish_all q frames) = 30 /\
  items (publish_all q frames) = take 30 (items q ++ frames).
Proof.
  induction frames as [|frame frames IH]; intros q Hmax Hlen; simpl.
  - split; [done|]. rewrite app_nil_r. by rewrite take_ge by lia.
  - destruct (IH (publish q frame)) as [IHmax IHitems].
    + by rewrite publish_maxsize.
    + rewrite publish_items_30 by done. rewrite length_take. lia.
    + split; [done|]. rewrite IHitems, publish_items_30 by done.
      destruct (decide (30 <= length (items q))%nat) as [Hge|Hlt].
      * rewrite (take_app_le (items q) [frame]) by lia.
        rewrite (take_ge (items q)) by lia.
        by rewrite !take_app_le by lia.
      * rewrite (take_ge (items q ++ [frame])).
        -- by rewrite <- app_assoc.
        -- rewrite length_app. simpl. lia.
Qed.

(** C1 (as amended).  For every run of frame arrivals published to the
    queue a camera is created with (capacity 30), publishing is a total,
    non-raising step, the queue never holds more than 30 frames, and a
    frame that arrives while the queue is full is discarded with the queue
    left as it is; the queue therefore holds the 30 earliest arrivals. *)
Theorem publish_bounded_drop_newest frames frame :
  let q := publish_all (@new_frame_queue Frame) frames in
  qsize q <= 30 /\
  items q = take 30 frames /\
  publish q frame =
    (if full q then q else mkQueue 30 (items q ++ [frame])).
Proof.
  intros q.
  destruct (publish_all_items_30 frames new_frame_queue) as [Hmax Hitems];
    [done | simpl; lia |].
  simpl in Hitems. fold q in Hmax, Hitems. split; [|split].
  - unfold qsize. rewrite Hitems, length_take. lia.
  - done.
  - rewrite publish_unfold. by rewrite Hmax.
Qed.

End FrameQueue.

(** C1 (counterexample).  With the frames 1..30 queued and none read, the
    arrival of frame 31 leaves the queue at 1..30: the oldest frame is kept
    and the newest is lost, where drop-oldest would give 2..31. *)
Lemma publish_full_keeps_oldest :
  let q := CameraManager.publish_all CameraManager.new_frame_queue (seqZ 1 30) in
  PyQueue.full q = true /\
  PyQueue.items (CameraManager.publish q 31) = seqZ 1 30 /\
  PyQueue.items (CameraManager.publish q 31) <> seqZ 2 30 /\
  31 ∉ PyQueue.items (CameraManager.publish q 31).
Proof.
  vm_compute. repeat split; try discriminate.
  intros Hin. repeat (apply elem_of_cons in Hin as [Heq|Hin]; [discriminate|]).
  by apply elem_of_nil in Hin.
Qed.

Section Fps.
Import PyQueue CameraManager.
Context {Frame : Type}.

(** On a 30th frame the gauge is computed from the two clock readings of
    that same iteration, whatever [last_frame_time] held before. *)
Lemma capture_step_fps (camera : CameraStream Frame) cap frame (t1 t2 : Q) :
  capture camera = Some cap -> isOpened cap = true ->
  (frame_count camera + 1) mod 30 = 0 ->
  ~ (t2 - t1 == 0)%Q ->
  fps (capture_step camera (ReadOk frame) t1 t2).1 = (30 / (t2 - t1))%Q.
Proof.
  intros Hcap Hopen Hcount Hne. unfold capture_step. rewrite Hcap, Hopen.
  simpl. rewrite Hcount. simpl.
  destruct (Qeq_bool (t2 - t1) 0) eqn:Heq; [|done].
  apply Qeq_bool_iff in Heq. contradiction.
Qed.

End Fps.

(** C8 (the code at the failing input).  Thirty frames arrive one second
    apart; after the 30th the gauge reads 30000 frames per second, not the
    30/29 of the 29 seconds the thirty arrivals span nor the 1 of a
    30-second window. *)
Lemma fps_after_thirty_frames :
  let camera :=
    (CameraManager.capture_thread true Scenario.live_camera
                                  Scenario.one_per_second).1 in
  CameraManager.frame_count camera = 30 /\
  (CameraManager.fps camera == 30000)%Q /\
  ~ (CameraManager.fps camera == 30 / 29)%Q /\
  ~ (CameraManager.fps camera == 1)%Q.
Proof. vm_compute. repeat split; discriminate. Qed.

(** * Properties of [start_camera] *)

Section StartCamera.
Import PyQueue CameraManager.
Context {Frame : Type}.
Implicit Types (mgr : Manager Frame) (camera : CameraStream Frame).

(** A failed open: [start_camera] answers [False], makes the one open
    attempt, keeps the camera registered and stopped and starts no
    thread. *)
Lemma start_camera_failed mgr cid camera o :
  cameras mgr !! cid = Some camera -> is_running camera = false ->
  o <> Opened ->
  exists camera',
    start_camera mgr cid o =
      (mkManager (<[cid := camera']> (cameras mgr)) (running mgr) (threads mgr),
       false, [EOpen (url camera); ELogError]) /\
    is_running camera' = false /\ url camera' = url camera.
Proof.
  intros Hcam Hrun Ho. unfold start_camera. rewrite Hcam, Hrun.
  destruct o; [done| |].
  - eexists. split; [reflexivity|]. by simpl.
  - exists camera. split; [|done].
    rewrite insert_id by done. by destruct mgr.
Qed.

Lemma start_camera_opened mgr cid camera :
  cameras mgr !! cid = Some camera -> is_running camera = false ->
  let '(mgr', ok, effs) := start_camera mgr cid Opened in
  ok = true /\ camera_running mgr' cid = true /\
  effs = [EOpen (url camera); ESetBufferSize; EThreadStart cid; ELogInfo].
Proof.
  intros Hcam Hrun. unfold start_camera. rewrite Hcam, Hrun.
  repeat split. unfold camera_running. simpl.
  rewrite lookup_insert_eq. simpl.
  apply bool_decide_eq_true. set_solver.
Qed.

(** C6 (as amended).  For a registered, stopped camera whose open fails on
    each of N consecutive [start_camera] calls and succeeds on the next
    one: every failing call answers [False] and leaves the camera stopped
    with no capture thread, the call that opens answers [True] and leaves
    the camera running, every call makes exactly one open attempt, and no
    call sleeps or otherwise schedules a retry. *)
Theorem start_camera_no_backoff (failures : list (@open_outcome)) :
  forall mgr cid camera,
  cameras mgr !! cid = Some camera -> is_running camera = false ->
  Forall (fun o => o <> Opened) failures ->
  let after_failures := start_camera_calls mgr cid failures in
  let after_open := start_camera_calls mgr cid (failures ++ [Opened]) in
  after_failures.1.2 = repeat false (length failures) /\
  camera_running after_failures.1.1 cid = false /\
  threads after_failures.1.1 = threads mgr /\
  after_open.1.2 = repeat false (length failures) ++ [true] /\
  camera_running after_open.1.1 cid = true /\
  filter is_sleep after_open.2 = [] /\
  length (filter is_open after_open.2) = S (length failures) /\
  length (filter is_thread_start after_open.2) = 1%nat.
Proof.
  induction failures as [|o failures IH]; intros mgr cid camera Hcam Hrun Hfail.
  - simpl. pose proof (start_camera_opened mgr cid camera Hcam Hrun) as Hopen.
    destruct (start_camera mgr cid Opened) as [[mgr' ok] effs].
    destruct Hopen as (-> & Hrunning & ->). simpl.
    repeat split; try done.
    unfold camera_running. by rewrite Hcam, Hrun.
  - apply Forall_cons in Hfail as [Ho Hfail].
    destruct (start_camera_failed mgr cid camera o Hcam Hrun Ho)
      as (camera' & Hstep & Hrun' & Hurl).
    simpl. rewrite Hstep.
    set (mgr1 := mkManager (<[cid:=camera']> (cameras mgr)) (running mgr)
                           (threads mgr)).
    assert (Hcam1 : cameras mgr1 !! cid = Some camera')
      by (simpl; apply lookup_insert_eq).
    specialize (IH mgr1 cid camera' Hcam1 Hrun' Hfail). simpl in IH.
    destruct (start_camera_calls mgr1 cid failures) as [[mgrF oksF] effsF].
    destruct (start_camera_calls mgr1 cid (failures ++ [Opened]))
      as [[mgrO oksO] effsO].
    simpl in *. destruct IH as (-> & HrF & HtF & -> & HrO & HsO & HoO & HtO).
    repeat split; try done. by rewrite <- HoO.
Qed.

End StartCamera.

(** C6 (witness). *)
Lemma start_camera_no_backoff_witness :
  let mgr := Scenario.one_camera in
  let after_open :=
    CameraManager.start_camera_calls mgr 1
      ([CameraManager.NotOpened; CameraManager.OpenRaised;
        CameraManager.NotOpened] ++ [CameraManager.Opened]) in
  after_open.1.2 = [false; false; false; true] /\
  CameraManager.camera_running after_open.1.1 1 = true /\
  filter CameraManager.is_sleep after_open.2 = [].
Proof.
  intros mgr after_open.
  pose proof (start_camera_no_backoff
                [CameraManager.NotOpened; CameraManager.OpenRaised;
                 CameraManager.NotOpened]
                mgr 1
                (CameraManager.new_stream 1 "rtsp://10.0.0.7/stream" "gate"
                                          true "{}")) as H.
  destruct H as (_ & _ & _ & Hoks & Hrun & Hsleep & _).
  - reflexivity.
  - reflexivity.
  - repeat constructor; discriminate.
  - auto.
Defined.

(** C6 (counterexample).  A registered camera whose open fails: the call
    answers [False] after one open attempt and one log line; nothing
    sleeps, no thread is started, no second attempt is made, and the
    camera is left stopped. *)
Lemma failed_open_schedules_no_retry :
  let r := CameraManager.start_camera Scenario.one_camera 1
                                      CameraManager.NotOpened in
  r.1.2 = false /\
  r.2 = [CameraManager.EOpen "rtsp://10.0.0.7/stream"; CameraManager.ELogError] /\
  filter CameraManager.is_sleep r.2 = [] /\
  filter CameraManager.is_thread_start r.2 = [] /\
  CameraManager.threads r.1.1 = ∅ /\
  CameraManager.camera_running r.1.1 1 = false.
Proof. vm_compute. repeat split. Qed.

(** * Properties of the retention passes *)

Section Retention.
Import RecordingManager.
Implicit Types (w : World) (cfg : Config) (files : gmap string File)
               (rows marked : list Recording) (r : Recording).

Lemma take_while_all {A} (p : A -> bool) (l : list A) :
  forallb p l = true -> take_while p l = l.
Proof.
  induction l as [|x l IH]; simpl; [done|].
  intros [-> Hl]%andb_true_iff. by rewrite IH.
Qed.

Lemma take_while_prefix {A} (p : A -> bool) (l : list A) :
  take_while p l `prefix_of` l.
Proof.
  induction l as [|x l IH]; simpl; [done|].
  destruct (p x); [by apply prefix_cons | apply prefix_nil].
Qed.

Lemma take_while_Forall {A} (p : A -> bool) (l : list A) :
  Forall (fun x => p x = true) (take_while p l).
Proof.
  induction l as [|x l IH]; simpl; [constructor|].
  destruct (p x) eqn:Hp; by constructor.
Qed.

(** Whether a later row can be unlinked is not changed by the removal of a
    file that could itself be unlinked. *)
Lemma deletable_delete files r r' f :
  files !! file_path r = Some f -> unlink_raises f = false ->
  deletable (delete (file_path r) files) r' = deletable files r'.
Proof.
  intros Hf Hok. unfold deletable.
  destruct (decide (file_path r' = file_path r)) as [->|Hne].
  - by rewrite lookup_delete_eq, Hf, Hok.
  - by rewrite lookup_delete_ne.
Qed.

Lemma forallb_deletable_delete files r rows f :
  files !! file_path r = Some f -> unlink_raises f = false ->
  forallb (deletable (delete (file_path r) files)) rows
  = forallb (deletable files) rows.
Proof.
  intros Hf Hok. induction rows as [|r' rows IH]; simpl; [done|].
  by rewrite IH, (deletable_delete _ _ _ f).
Qed.

Lemma take_while_deletable_delete files r rows f :
  files !! file_path r = Some f -> unlink_raises f = false ->
  take_while (deletable (delete (file_path r) files)) rows
  = take_while (deletable files) rows.
Proof.
  intros Hf Hok. induction rows as [|r' rows IH]; simpl; [done|].
  by rewrite IH, (deletable_delete _ _ _ f).
Qed.

Lemma unlink_all_absent files r rows :
  files !! file_path r = None ->
  unlink_all rows (delete (file_path r) files) = unlink_all rows files.
Proof. intros Hf. by rewrite delete_id. Qed.

(** The loop of the age pass: it goes through the rows up to the first one
    whose file cannot be unlinked, and raises exactly if there is one. *)
Lemma cleanup_loop_spec rows : forall files marked gone,
  exists gone',
    cleanup_loop rows files marked gone =
      (negb (forallb (deletable files) rows),
       unlink_all (take_while (deletable files) rows) files,
       marked ++ take_while (deletable files) rows, gone').
Proof.
  induction rows as [|r rows IH]; intros files marked gone; simpl.
  - exists gone. by rewrite app_nil_r.
  - destruct (files !! file_path r) as [f|] eqn:Hf.
    + assert (Hd : deletable files r = negb (unlink_raises f))
        by (unfold deletable; by rewrite Hf).
      rewrite Hd. destruct (unlink_raises f) eqn:Hraise; simpl.
      * exists gone. by rewrite app_nil_r.
      * destruct (IH (delete (file_path r) files) (marked ++ [r])
                     (gone ++ [file_path r])) as [gone' ->].
        exists gone'.
        rewrite (forallb_deletable_delete _ _ _ f),
                (take_while_deletable_delete _ _ _ f) by done.
        by rewrite <- app_assoc.
    + assert (Hd : deletable files r = true)
        by (unfold deletable; by rewrite Hf).
      rewrite Hd. simpl. destruct (IH files (marked ++ [r]) gone) as [gone' ->].
      exists gone'. rewrite <- app_assoc. simpl.
      by rewrite delete_id.
Qed.

Lemma unlink_all_cons r rows files :
  unlink_all (r :: rows) files = unlink_all rows (delete (file_path r) files).
Proof. reflexivity. Qed.

Lemma unlink_all_lookup_other rows : forall files path,
  path ∉ map file_path rows -> unlink_all rows files !! path = files !! path.
Proof.
  induction rows as [|r rows IH]; intros files path Hnotin; [done|].
  simpl in Hnotin. apply not_elem_of_cons in Hnotin as [Hne Hnotin].
  rewrite unlink_all_cons, IH by done. by rewrite lookup_delete_ne.
Qed.

Lemma unlink_all_lookup_None rows : forall files path,
  files !! path = None -> unlink_all rows files !! path = None.
Proof.
  induction rows as [|r rows IH]; intros files path Hnone; [done|].
  rewrite unlink_all_cons. apply IH. rewrite lookup_delete_None. by right.
Qed.

Lemma unlink_all_lookup_gone rows : forall files r,
  r ∈ rows -> unlink_all rows files !! file_path r = None.
Proof.
  induction rows as [|r' rows IH]; intros files r Hin.
  - by apply elem_of_nil in Hin.
  - rewrite unlink_all_cons. apply elem_of_cons in Hin as [->|Hin].
    + apply unlink_all_lookup_None, lookup_delete_eq.
    + by apply IH.
Qed.

(** Rows of a table with a primary key are told apart by their ids. *)
Lemma same_id_same_row rows r r' :
  NoDup (map id rows) -> r ∈ rows -> r' ∈ rows -> id r = id r' -> r = r'.
Proof.
  induction rows as [|x rows IH]; simpl; intros Hnd Hr Hr' Hid.
  - by apply elem_of_nil in Hr.
  - apply NoDup_cons in Hnd as [Hx Hnd].
    apply elem_of_cons in Hr as [->|Hr]; apply elem_of_cons in Hr' as [->|Hr'].
    + done.
    + exfalso. apply Hx. rewrite Hid. apply list_elem_of_In, in_map.
      by apply list_elem_of_In.
    + exfalso. apply Hx. rewrite <- Hid. apply list_elem_of_In, in_map.
      by apply list_elem_of_In.
    + by apply IH.
Qed.

Lemma commit_deletes_not_elem rows marked r :
  r ∈ marked -> r ∉ commit_deletes rows marked.
Proof.
  intros Hin Hin'. unfold commit_deletes in Hin'.
  apply list_elem_of_filter in Hin' as [Hnot _].
  apply negb_prop_elim in Hnot. apply Hnot, bool_decide_pack.
  apply list_elem_of_In, in_map. by apply list_elem_of_In.
Qed.

(** Committing the deletion of the rows a predicate selects leaves the
    rows it does not select. *)
Lemma commit_deletes_filter (P : Recording -> Prop)
    `{!forall r, Decision (P r)} rows :
  NoDup (map id rows) ->
  commit_deletes rows (filter P rows) = filter (fun r => ~ P r) rows.
Proof.
  intros Hnd. unfold commit_deletes.
  assert (Hiff : forall r, r ∈ rows ->
            (negb (bool_decide (id r ∈ map id (filter P rows))) <-> ~ P r)).
  { intros r Hr. rewrite negb_True, bool_decide_spec. split.
    - intros Hnot HP. apply Hnot. apply list_elem_of_In, in_map.
      apply list_elem_of_In, list_elem_of_filter. done.
    - intros HnP Hin. apply list_elem_of_In, in_map_iff in Hin
        as (r' & Hid & Hr'%list_elem_of_In).
      apply list_elem_of_filter in Hr' as [HP Hr'].
      assert (r' = r) as -> by by eapply same_id_same_row. done. }
  clear Hnd. revert Hiff. generalize (filter P rows) as sel.
  intros sel Hiff. induction rows as [|x rows IH]; [done|].
  rewrite !filter_cons.
  destruct (decide (negb (bool_decide (id x ∈ map id sel)))) as [Hd|Hd];
    destruct (decide (~ P x)) as [Hp|Hp].
  - f_equal. apply IH. intros r Hr. apply Hiff. by right.
  - exfalso. apply Hp, Hiff; [left|done].
  - exfalso. apply Hd, Hiff; [left|done].
  - apply IH. intros r Hr. apply Hiff. by right.
Qed.

End Retention.
Section AgeEviction.
Import RecordingManager.

(** C3 (as amended).  One age-eviction pass on a catalog keyed by [id], with [old] the
    Recordings created before [now] minus [retention_days]: the pass raises
    exactly if the file of one of them cannot be unlinked.  A pass that does
    not raise deletes exactly the Recordings of [old]: those rows, and no
    others, leave the catalog, their files leave the disk, and every other
    file stays as it was.  A pass that raises leaves the catalog as it was,
    the Recordings of [old] included. *)
Theorem cleanup_deletes_exactly_old (cfg : Config) (now : Z) (w : World) :
  NoDup (map id (catalog w)) ->
  let cutoff := now - timedelta_days (retention_days cfg) in
  let old := filter (fun r => created_at r < cutoff) (catalog w) in
  let res := _cleanup_old_recordings cfg now w in
  raised res = negb (forallb (deletable (fs w)) old) /\
  (raised res = false ->
   deleted res = old /\
   catalog (world res) = filter (fun r => ~ created_at r < cutoff) (catalog w) /\
   (forall r, r ∈ old -> fs (world res) !! file_path r = None) /\
   (forall path, path ∉ map file_path old ->
                 fs (world res) !! path = fs w !! path)) /\
  (raised res = true -> catalog (world res) = catalog w).
Proof.
  intros Hnd cutoff old res.
  assert (Hold : old_recordings cfg now (catalog w) = old).
  { unfold old_recordings, old. apply list_filter_iff. intros r.
    apply bool_decide_spec. }
  unfold res, _cleanup_old_recordings.
  destruct (cleanup_loop_spec (old_recordings cfg now (catalog w)) (fs w) [] [])
    as [gone' ->].
  rewrite Hold.
  destruct (forallb (deletable (fs w)) old) eqn:Hok; simpl.
  - rewrite (take_while_all _ _ Hok).
    split; [done|]. split; [|done]. intros _. repeat split.
    + by apply commit_deletes_filter.
    + intros r Hr. by apply unlink_all_lookup_gone.
    + intros path Hpath. by apply unlink_all_lookup_other.
  - split; [done|]. split; done.
Qed.

End AgeEviction.

(** C3 (witness): retention of 7 days, recordings of day 0, day 6 and
    day 8, a pass at day 8: exactly the recording of day 0 is deleted. *)
Lemma cleanup_deletes_exactly_old_witness :
  let res := RecordingManager._cleanup_old_recordings
               Scenario.age_cfg (Scenario.day 8) Scenario.age_world in
  RecordingManager.raised res = false /\
  map RecordingManager.id (RecordingManager.deleted res) = [1] /\
  map RecordingManager.id (RecordingManager.catalog (RecordingManager.world res))
    = [2; 3] /\
  dom (RecordingManager.fs (RecordingManager.world res))
    = {[ "/var/nvr/1/d6.mp4"; "/var/nvr/1/d8.mp4" ]}.
Proof.
  intros res.
  destruct (cleanup_deletes_exactly_old Scenario.age_cfg (Scenario.day 8)
                                        Scenario.age_world)
    as (Hraised & Hquiet & _).
  - apply (bool_decide_unpack _). vm_compute. exact I.
  - fold res in Hraised, Hquiet.
    assert (Hfalse : RecordingManager.raised res = false)
      by (rewrite Hraised; vm_compute; reflexivity).
    destruct (Hquiet Hfalse) as (Hdel & Hcat & _).
    rewrite Hfalse, Hdel, Hcat. repeat split.
Defined.

(** C3 (counterexample): the same retention and the
    same three recordings, but the file of the day-0 recording cannot be
    unlinked.  The pass at day 8 raises, and the day-0 recording, older
    than the retention horizon, is still in the catalog. *)
Lemma old_recording_survives_the_pass :
  let res := RecordingManager._cleanup_old_recordings
               Scenario.age_cfg (Scenario.day 8) Scenario.locked_world in
  RecordingManager.raised res = true /\
  map RecordingManager.id (RecordingManager.catalog (RecordingManager.world res))
    = [1; 2; 3] /\
  map RecordingManager.id
      (RecordingManager.old_recordings
         Scenario.age_cfg (Scenario.day 8)
         (RecordingManager.catalog (RecordingManager.world res)))
    = [1].
Proof. vm_compute. repeat split. Qed.

Section CapacityEviction.
Import RecordingManager.
Implicit Types (w : World) (cfg : Config) (files : gmap string File)
               (rows marked pre : list Recording) (r : Recording).

Lemma total_after_present r rows total files f :
  files !! file_path r = Some f ->
  total_after (r :: rows) total files
  = total_after rows (total - st_size f) (delete (file_path r) files).
Proof. intros Hf. simpl. by rewrite Hf. Qed.

Lemma total_after_absent r rows total files :
  files !! file_path r = None ->
  total_after (r :: rows) total files = total_after rows total files.
Proof. intros Hf. simpl. by rewrite Hf. Qed.

(** The loop of the capacity pass goes through a prefix [pre] of its rows:
    before each row of [pre] the running total is over the limit, and the
    loop is left because the total is within the limit, because the rows
    are used up, or because the next file cannot be unlinked. *)
Lemma enforce_loop_spec cfg rows : forall total files marked gone,
  exists pre exn gone',
    enforce_loop cfg rows total files marked gone =
      (exn, total_after pre total files, unlink_all pre files,
       marked ++ pre, gone') /\
    pre `prefix_of` rows /\
    forallb (deletable files) pre = true /\
    (forall j, (j < length pre)%nat ->
       within_limit cfg (total_after (take j rows) total files) = false) /\
    (exn = false ->
       within_limit cfg (total_after pre total files) = true \/ pre = rows) /\
    (exn = true ->
       exists r post, rows = pre ++ r :: post /\ deletable files r = false).
Proof.
  induction rows as [|r rows IH]; intros total files marked gone.
  - exists [], false, gone. simpl. rewrite app_nil_r.
    repeat split; try done. intros j Hj. simpl in Hj. lia. by right.
  - simpl. destruct (within_limit cfg total) eqn:Hlim.
    { exists [], false, gone. simpl. rewrite app_nil_r.
      repeat split; try done.
      - apply prefix_nil.
      - intros j Hj. simpl in Hj. lia.
      - by left. }
    destruct (files !! file_path r) as [f|] eqn:Hf.
    + destruct (unlink_raises f) eqn:Hraise.
      { exists [], true, gone. simpl. rewrite app_nil_r.
        repeat split; try done.
        - apply prefix_nil.
        - intros j Hj. simpl in Hj. lia.
        - intros _. exists r, rows. split; [done|].
          unfold deletable. by rewrite Hf, Hraise. }
      destruct (IH (total - st_size f) (delete (file_path r) files)
                   (marked ++ [r]) (gone ++ [file_path r]))
        as (pre & exn & gone' & -> & Hpre & Hok & Hover & Hstop & Hexn).
      exists (r :: pre), exn, gone'.
      rewrite (total_after_present _ _ _ _ f), unlink_all_cons by done.
      rewrite <- app_assoc. repeat split.
      * by apply prefix_cons.
      * simpl. rewrite (forallb_deletable_delete _ _ _ f) in Hok by done.
        rewrite Hok. unfold deletable. by rewrite Hf, Hraise.
      * intros [|j] Hj; [done|]. simpl in Hj.
        rewrite firstn_cons, (total_after_present _ _ _ _ f) by done.
        apply Hover. lia.
      * intros Hfalse. destruct (Hstop Hfalse) as [?| ->]; [by left | by right].
      * intros Htrue. destruct (Hexn Htrue) as (r' & post & -> & Hr').
        exists r', post. split; [done|].
        by rewrite (deletable_delete _ _ _ f) in Hr'.
    + destruct (IH total files (marked ++ [r]) gone)
        as (pre & exn & gone' & -> & Hpre & Hok & Hover & Hstop & Hexn).
      exists (r :: pre), exn, gone'.
      rewrite total_after_absent, unlink_all_cons, delete_id by done.
      rewrite <- app_assoc. repeat split.
      * by apply prefix_cons.
      * simpl. rewrite Hok. unfold deletable. by rewrite Hf.
      * intros [|j] Hj; [done|]. simpl in Hj.
        rewrite firstn_cons, total_after_absent by done.
        apply Hover. lia.
      * intros Hfalse. destruct (Hstop Hfalse) as [?| ->]; [by left | by right].
      * intros Htrue. destruct (Hexn Htrue) as (r' & post & -> & Hr').
        by exists r', post.
Qed.

#[local] Instance created_le_total : Total created_le.
Proof. intros a b. unfold created_le. lia. Qed.

#[local] Instance created_le_trans : Transitive created_le.
Proof. intros a b c. unfold created_le. lia. Qed.

Lemma order_by_created_asc_sorted rows :
  StronglySorted created_le (order_by_created_asc rows).
Proof. apply StronglySorted_merge_sort; apply _. Qed.

Lemma order_by_created_asc_perm rows : order_by_created_asc rows ≡ₚ rows.
Proof. apply merge_sort_Permutation. Qed.

End CapacityEviction.

Section CapacityPass.
Import RecordingManager.
Implicit Types (w : World) (cfg : Config) (files : gmap string File)
               (rows marked pre post : list Recording) (r : Recording).

(** Unlinking a file takes its size off the bytes counted below the
    storage root, if it lies there. *)
Lemma storage_usage_delete cfg files path f :
  files !! path = Some f ->
  storage_usage cfg files
  = (if under_storage cfg path then st_size f else 0)
    + storage_usage cfg (delete path files).
Proof.
  intros Hf. unfold storage_usage.
  rewrite (map_fold_delete_L _ _ path f files); [|intros; repeat case_match; lia|done].
  case_match; lia.
Qed.

(** With every listed file below the storage root, the running total of
    the loop is the number of bytes left on disk. *)
Lemma total_after_storage_usage cfg rows : forall files,
  Forall (fun r => under_storage cfg (file_path r) = true) rows ->
  total_after rows (storage_usage cfg files) files
  = storage_usage cfg (unlink_all rows files).
Proof.
  induction rows as [|r rows IH]; intros files Hunder; [done|].
  apply Forall_cons in Hunder as [Hr Hunder].
  rewrite unlink_all_cons. destruct (files !! file_path r) as [f|] eqn:Hf.
  - rewrite (total_after_present _ _ _ _ f) by done.
    rewrite <- IH by done. f_equal.
    rewrite (storage_usage_delete cfg files _ f Hf), Hr. lia.
  - rewrite total_after_absent, delete_id by done. by apply IH.
Qed.

Lemma filter_ids_none (ids : list Z) rows :
  (forall r, r ∈ rows -> id r ∈ ids) ->
  filter (fun r => negb (bool_decide (id r ∈ ids))) rows = [].
Proof.
  induction rows as [|x rows IH]; intros Hall; [done|].
  rewrite filter_cons. destruct (decide _) as [Hd|Hd].
  - exfalso. apply negb_prop_elim in Hd. apply Hd, bool_decide_pack, Hall.
    by left.
  - apply IH. intros r Hr. apply Hall. by right.
Qed.

Lemma filter_ids_all (ids : list Z) rows :
  (forall r, r ∈ rows -> id r ∉ ids) ->
  filter (fun r => negb (bool_decide (id r ∈ ids))) rows = rows.
Proof.
  induction rows as [|x rows IH]; intros Hall; [done|].
  rewrite filter_cons. destruct (decide _) as [Hd|Hd].
  - f_equal. apply IH. intros r Hr. apply Hall. by right.
  - exfalso. apply Hd. apply negb_prop_intro. intros Hin%bool_decide_unpack.
    by apply (Hall x); [left|].
Qed.

(** Committing the deletion of a prefix of the sorted rows leaves the rest
    of them. *)
Lemma commit_deletes_prefix rows sorted pre post :
  NoDup (map id rows) -> sorted ≡ₚ rows -> sorted = pre ++ post ->
  commit_deletes rows pre ≡ₚ post.
Proof.
  intros Hnd Hperm ->. unfold commit_deletes.
  rewrite <- Hperm, filter_app.
  assert (Hnd' : NoDup (map id (pre ++ post))) by (by rewrite Hperm).
  rewrite map_app in Hnd'. apply NoDup_app in Hnd' as (_ & Hdisj & _).
  rewrite filter_ids_none, filter_ids_all; [done| |].
  - intros r Hr Hin. apply (Hdisj (id r) Hin).
    apply list_elem_of_In, in_map. by apply list_elem_of_In.
  - intros r Hr. apply list_elem_of_In, in_map. by apply list_elem_of_In.
Qed.

Lemma commit_deletes_nil rows : commit_deletes rows [] = rows.
Proof.
  unfold commit_deletes. apply filter_ids_all.
  intros r _ Hin. by apply elem_of_nil in Hin.
Qed.

(** What one pass of [_enforce_storage_limit] does, in terms of the rows
    it hands to [db.delete]. *)
Lemma enforce_storage_limit_spec cfg w :
  let sorted := order_by_created_asc (catalog w) in
  let total := storage_usage cfg (fs w) in
  let res := _enforce_storage_limit cfg w in
  deleted res `prefix_of` sorted /\
  forallb (deletable (fs w)) (deleted res) = true /\
  (forall j, (j < length (deleted res))%nat ->
     within_limit cfg (total_after (take j sorted) total (fs w)) = false) /\
  (raised res = true \/
   within_limit cfg (total_after (deleted res) total (fs w)) = true \/
   deleted res = sorted) /\
  (raised res = true ->
     exists r post, sorted = deleted res ++ r :: post /\
                    deletable (fs w) r = false) /\
  final_total_size cfg w = total_after (deleted res) total (fs w) /\
  fs (world res) = unlink_all (deleted res) (fs w) /\
  catalog (world res) =
    (if raised res then catalog w
     else commit_deletes (catalog w) (deleted res)).
Proof.
  intros sorted total res.
  unfold res, _enforce_storage_limit, final_total_size. fold total. fold sorted.
  destruct (within_limit cfg total) eqn:Hlim.
  { cbn [raised world deleted]. rewrite commit_deletes_nil. simpl.
    repeat split; try done.
    - apply prefix_nil.
    - intros j Hj. lia.
    - right. by left. }
  destruct (enforce_loop_spec cfg sorted total (fs w) [] [])
    as (pre & exn & gone' & -> & Hpre & Hok & Hover & Hstop & Hexn).
  simpl. destruct exn; simpl; repeat split; try done.
  - by left.
  - right. destruct Hstop as [?| ->]; [done|by left|by right].
Qed.

End CapacityPass.

Section EvictionClaims.
Import RecordingManager.

(** C2.  One capacity-eviction pass deletes Recordings oldest first, in
    ascending order of [created_at]: the rows it deletes are a prefix of
    the catalog so ordered; each of them is deleted only while the running
    total of on-disk bytes exceeds the limit; the loop is left as soon as
    the total is at or under the limit (or the rows are used up, or an
    unlink raises), so nothing is deleted beyond need.  On a catalog keyed
    by [id] the surviving rows are the rest of the ordered catalog, and
    with every recorded file below the storage root the running total is
    the number of bytes left on disk.  With a limit of 100 MB and
    recordings A, B, C of 40 MB each, A the oldest, exactly A is deleted
    and B and C are left with 80 MB. *)
Theorem enforce_storage_limit_oldest_first :
  (forall (cfg : Config) (w : World),
     let sorted := order_by_created_asc (catalog w) in
     let total := storage_usage cfg (fs w) in
     let res := _enforce_storage_limit cfg w in
     StronglySorted created_le sorted /\
     sorted ≡ₚ catalog w /\
     deleted res `prefix_of` sorted /\
     (forall j, (j < length (deleted res))%nat ->
        within_limit cfg (total_after (take j sorted) total (fs w)) = false) /\
     (raised res = true \/
      within_limit cfg (total_after (deleted res) total (fs w)) = true \/
      deleted res = sorted) /\
     (NoDup (map id (catalog w)) -> raised res = false ->
        catalog (world res) ≡ₚ drop (length (deleted res)) sorted) /\
     (Forall (fun r => under_storage cfg (file_path r) = true) (catalog w) ->
        storage_usage cfg (fs (world res))
        = total_after (deleted res) total (fs w)))
  /\
  (let res := _enforce_storage_limit Scenario.quota_cfg Scenario.quota_world in
   storage_usage Scenario.quota_cfg (fs Scenario.quota_world)
     = 120 * Scenario.MB /\
   raised res = false /\
   map id (deleted res) = [1] /\
   map id (catalog (world res)) = [2; 3] /\
   dom (fs (world res)) = {[ "/var/nvr/1/B.mp4"; "/var/nvr/1/C.mp4" ]} /\
   storage_usage Scenario.quota_cfg (fs (world res)) = 80 * Scenario.MB /\
   within_limit Scenario.quota_cfg (80 * Scenario.MB) = true).
Proof.
  split.
  - intros cfg w sorted total res.
    destruct (enforce_storage_limit_spec cfg w)
      as (Hpre & Hok & Hover & Hstop & Hexn & Hfinal & Hfs & Hcat).
    fold sorted in Hpre, Hover, Hstop, Hexn. fold total in Hover, Hstop, Hfinal.
    fold res in Hpre, Hok, Hover, Hstop, Hexn, Hfinal, Hfs, Hcat.
    split; [apply order_by_created_asc_sorted|].
    split; [apply order_by_created_asc_perm|].
    repeat split; try done.
    + intros Hnd Hraised. rewrite Hcat, Hraised.
      destruct Hpre as [post Hpost].
      apply (commit_deletes_prefix _ sorted _ _ Hnd);
        [apply order_by_created_asc_perm|].
      rewrite Hpost. by rewrite drop_app_length.
    + intros Hunder. rewrite Hfs. symmetry.
      apply total_after_storage_usage.
      apply Forall_forall. intros r Hr.
      rewrite Forall_forall in Hunder. apply Hunder.
      rewrite <- (order_by_created_asc_perm (catalog w)). fold sorted.
      destruct Hpre as [post ->]. apply elem_of_app. by left.
  - vm_compute. repeat split.
Qed.


End EvictionClaims.


(** * Properties of segment registration and of [get_recordings] *)

Section Catalog.
Import RecordingManager.

(** C7 (as amended).  Closing a segment inserts one row and nothing is
    checked on the way: [start_time] and [end_time] are the two clock
    readings as taken, in whatever order they come, [duration] is their
    difference in seconds, and [file_size] is the size of the segment file
    at that moment if the file exists and 0 if it does not.  The disk is
    left alone. *)
Theorem register_segment_row (cid : Z) (is_event_based : bool)
    (filepath : string) (start_t end_t created : Z) (w : World) :
  let w' := register_segment cid is_event_based filepath start_t end_t
                             created w in
  exists row,
    catalog w' = catalog w ++ [row] /\
    camera_id row = cid /\
    start_time row = start_t /\
    end_time row = end_t /\
    duration row = total_seconds (end_t - start_t) /\
    file_path row = filepath /\
    file_size row = match fs w !! filepath with
                    | Some f => st_size f
                    | None => 0
                    end /\
    fs w' = fs w.
Proof. intros w'. eexists. repeat split. Qed.

#[local] Instance created_ge_total : Total created_ge.
Proof. intros a b. unfold created_ge. lia. Qed.

#[local] Instance created_ge_trans : Transitive created_ge.
Proof. intros a b c. unfold created_ge. lia. Qed.

Lemma order_by_created_desc_sorted rows :
  StronglySorted created_ge (order_by_created_desc rows).
Proof. apply StronglySorted_merge_sort; apply _. Qed.

Lemma sql_limit_prefix {A} (limit : Z) (l : list A) :
  sql_limit limit l `prefix_of` l.
Proof.
  unfold sql_limit. destruct (limit <? 0); [done|].
  exists (drop (Z.to_nat limit) l). by rewrite take_drop.
Qed.

Lemma sql_limit_length {A} (limit : Z) (l : list A) :
  Z.of_nat (length (sql_limit limit l))
  = if limit <? 0 then Z.of_nat (length l)
    else Z.min limit (Z.of_nat (length l)).
Proof.
  unfold sql_limit. destruct (limit <? 0) eqn:Hneg; [done|].
  apply Z.ltb_ge in Hneg. rewrite length_take. lia.
Qed.

Lemma selected_recordings_sorted rows cid limit :
  StronglySorted created_ge (selected_recordings rows cid limit).
Proof.
  unfold selected_recordings.
  set (sorted := order_by_created_desc _).
  destruct (sql_limit_prefix limit sorted) as [rest Hrest].
  apply (StronglySorted_app_1_l _ _ rest).
  rewrite <- Hrest. apply order_by_created_desc_sorted.
Qed.

Lemma filtered_recordings_truthy rows n :
  n <> 0 ->
  filtered_recordings rows (Some n) = filter (fun r => camera_id r = n) rows.
Proof.
  intros Hn. unfold filtered_recordings.
  assert (Ht : truthy (Some n) = true)
    by (simpl; by apply negb_true_iff, Z.eqb_neq).
  rewrite Ht. apply list_filter_iff. intros r. split.
  - intros H%bool_decide_unpack. congruence.
  - intros ->. by apply bool_decide_pack.
Qed.

(** C9 (as amended).  [get_recordings(camera_id, limit)] answers with the
    head of the selected rows in descending order of creation time: with
    [limit >= 0] the first [limit] of them, or all if there are fewer, and
    with a negative [limit] every one of them.  The selected rows are the
    rows of that camera when [camera_id] is truthy, and the whole catalog
    when it is not: a [camera_id] of 0 answers exactly as [None] does,
    with the recordings of every camera. *)
Theorem get_recordings_limit_order_truthy
    (rows : list Recording) (cid : option Z) (limit : Z) :
  let query := filtered_recordings rows cid in
  let sel := selected_recordings rows cid limit in
  get_recordings rows cid limit = map to_info sel /\
  sel `prefix_of` order_by_created_desc query /\
  Z.of_nat (length (get_recordings rows cid limit))
    = (if limit <? 0 then Z.of_nat (length query)
       else Z.min limit (Z.of_nat (length query))) /\
  (0 <= limit -> Z.of_nat (length (get_recordings rows cid limit)) <= limit) /\
  StronglySorted created_ge (order_by_created_desc query) /\
  order_by_created_desc query ≡ₚ query /\
  StronglySorted created_ge sel /\
  (forall n, n <> 0 ->
             filtered_recordings rows (Some n)
             = filter (fun r => camera_id r = n) rows) /\
  filtered_recordings rows (Some 0) = rows /\
  filtered_recordings rows None = rows /\
  get_recordings rows (Some 0) limit = get_recordings rows None limit /\
  map info_id (get_recordings Scenario.two_cameras (Some 2) 10) = [4; 2] /\
  map info_camera_id (get_recordings Scenario.two_cameras (Some 0) 10)
    = [2; 1; 2; 1] /\
  map info_id (get_recordings Scenario.two_cameras None 1) = [4].
Proof.
  intros query sel.
  assert (Hperm : order_by_created_desc query ≡ₚ query)
    by apply merge_sort_Permutation.
  assert (Hlen : Z.of_nat (length (get_recordings rows cid limit))
                 = if limit <? 0 then Z.of_nat (length query)
                   else Z.min limit (Z.of_nat (length query))).
  { unfold get_recordings, selected_recordings. fold query.
    rewrite length_map, sql_limit_length.
    by rewrite (Permutation_length Hperm). }
  split; [done|]. split; [apply sql_limit_prefix|]. split; [done|].
  split.
  { intros Hpos. rewrite Hlen.
    destruct (limit <? 0) eqn:Hneg; [apply Z.ltb_lt in Hneg|]; lia. }
  split; [apply order_by_created_desc_sorted|]. split; [done|].
  split; [apply selected_recordings_sorted|].
  split; [intros n Hn; by apply filtered_recordings_truthy|].
  repeat split.
Qed.

End Catalog.

(** C7 (counterexample).  A segment recorded across the end of daylight
    saving time is closed with a clock reading twenty minutes before the
    one it was opened with; the row is inserted all the same, with
    [end_time] before [start_time] and a duration of minus 1200 seconds. *)
Lemma segment_closed_before_it_started :
  let w' := RecordingManager.register_segment
              1 false "/var/nvr/1/2025-10-26/1_02-30-00.mp4"
              Scenario.dst_start Scenario.dst_end Scenario.dst_end
              Scenario.dst_world in
  length (RecordingManager.catalog w') = 1%nat /\
  Forall (fun row =>
            RecordingManager.end_time row < RecordingManager.start_time row /\
            (RecordingManager.duration row == - (1200))%Q /\
            RecordingManager.file_size row = 7340032)
         (RecordingManager.catalog w').
Proof. vm_compute. repeat constructor; discriminate. Qed.

(** C9 (counterexample).  Four recordings in the
    catalog and a [limit] of minus 1: the answer holds all four of them,
    more than [limit]. *)
Lemma negative_limit_returns_every_row :
  map RecordingManager.info_id
      (RecordingManager.get_recordings Scenario.two_cameras None (-1))
    = [4; 3; 2; 1] /\
  -1 < Z.of_nat (length (RecordingManager.get_recordings
                           Scenario.two_cameras None (-1))).
Proof. vm_compute. split; reflexivity. Qed.

(** * Properties of the detection engine *)

Section Detection.
Import DetectionEngine.

Lemma detection_step_appends cfg names cid clock frame_results events :
  detection_step cfg names cid clock frame_results events
  = events ++ emitted cfg names cid clock frame_results.
Proof.
  unfold emitted, detection_step.
  destruct frame_results as [results|]; [|by rewrite app_nil_r].
  destruct (detections_of_boxes cfg names (all_boxes results)) as [[|d ds]|];
    by rewrite ?app_nil_r.
Qed.

(** The loop over the boxes fails as soon as one class id has no name, and
    otherwise keeps, in order, the boxes that pass the filter. *)
Lemma detections_of_boxes_spec cfg names boxes :
  detections_of_boxes cfg names boxes
  = if all_named names boxes
    then Some (accepted_detections cfg names boxes)
    else None.
Proof.
  induction boxes as [|box rest IH]; [done|].
  cbn [detections_of_boxes all_named accepted_detections forallb omap
       list_omap].
  rewrite IH. unfold detection_of_box, passes_filter, detection_from.
  fold (all_named names rest).
  destruct (names !! cls box) as [lbl|] eqn:Hname.
  - rewrite (bool_decide_eq_true_2 (is_Some (Some lbl))) by (by eexists).
    cbn [andb].
    destruct (xyxy box) as [[[x1 y1] x2] y2].
    destruct (bool_decide (lbl ∈ detection_classes cfg)
              && Qle_bool (detection_confidence cfg) (conf box));
      by destruct (all_named names rest).
  - rewrite (bool_decide_eq_false_2 (is_Some None)); [done|].
    intros [lbl Hlbl]. congruence.
Qed.

Lemma emitted_spec cfg names cid clock results :
  emitted cfg names cid clock (Some results)
  = if all_named names (all_boxes results)
    then imap (fun i d => event_of cid (clock (2 * i)%nat)
                                   (clock (2 * i + 1)%nat) d)
              (accepted_detections cfg names (all_boxes results))
    else [].
Proof.
  unfold emitted, detection_step. rewrite detections_of_boxes_spec.
  destruct (all_named names (all_boxes results)); [|done].
  by destruct (accepted_detections cfg names (all_boxes results)).
Qed.

(** C5 (as amended).  What an iteration appends does not depend on the
    events emitted before, for the same camera and label or any other.  On
    a pass in which every reported box has a class id with a name, every
    detection that passes the class and confidence filter is written as
    one Event, one new row per accepted detection, in the order of the
    boxes, each with two clock readings of its own; a pass with a box
    whose class id has no name writes nothing.  Detections of one label at
    seconds 0, 3 and 6 give three Events. *)
Theorem detection_emits_every_detection :
  (forall cfg names cid clock frame_results events,
     detection_step cfg names cid clock frame_results events
     = events ++ emitted cfg names cid clock frame_results) /\
  (forall cfg names cid clock results,
     emitted cfg names cid clock (Some results)
     = if all_named names (all_boxes results)
       then imap (fun i d => event_of cid (clock (2 * i)%nat)
                                      (clock (2 * i + 1)%nat) d)
                 (accepted_detections cfg names (all_boxes results))
       else []) /\
  (forall cfg names cid clock, emitted cfg names cid clock None = []) /\
  (let events :=
     detection_thread Scenario.det_cfg Scenario.names 1
       [Scenario.person_at 0; Scenario.person_at 3; Scenario.person_at 6] [] in
   map ev_label events = ["person"; "person"; "person"] /\
   map ev_camera_id events = [1; 1; 1] /\
   map ev_start_time events = [0; 3000000; 6000000]).
Proof.
  split; [|split; [|split]].
  - intros cfg names cid clock frame_results events.
    unfold emitted, detection_step.
    destruct frame_results as [results|]; [|by rewrite app_nil_r].
    destruct (detections_of_boxes cfg names (all_boxes results))
      as [[|d ds]|]; by rewrite ?app_nil_r.
  - intros cfg names cid clock results.
    unfold emitted, detection_step. rewrite detections_of_boxes_spec.
    destruct (all_named names (all_boxes results)); [|done].
    by destruct (accepted_detections cfg names (all_boxes results)).
  - done.
  - vm_compute. repeat split.
Qed.

End Detection.

(** C5 (counterexample).  With a window of 5 seconds and the same person
    detected by camera 1 at seconds 0 and 3, the table holds two Events of
    that camera and label, 3 seconds apart. *)
Lemma two_events_within_the_window :
  let events :=
    DetectionEngine.detection_thread Scenario.det_cfg Scenario.names 1
      [Scenario.person_at 0; Scenario.person_at 3] [] in
  length events = 2%nat /\
  map DetectionEngine.ev_label events = ["person"; "person"] /\
  map DetectionEngine.ev_start_time events = [0; 3000000] /\
  DetectionEngine.debounced (Scenario.seconds 5) events = false.
Proof. vm_compute. repeat split. Qed.

Section MotionFacts.
Import DetectionEngine.
Context {Image Contour : Type} `{Cv2 Image Contour}.

(** C10.  When at least one of the two frames is [None], [detect_motion]
    returns [(False, 0.0)] and has called nothing of [cv2]. *)
Theorem detect_motion_none (cfg : Config) (frame1 frame2 : option Image) :
  frame1 = None \/ frame2 = None ->
  detect_motion cfg frame1 frame2 = ((false, 0%Q), []).
Proof. intros [-> | ->]; [done|]. by destruct frame1. Qed.

End MotionFacts.

(** C10 (witness). *)
Lemma detect_motion_none_witness :
  @DetectionEngine.detect_motion _ _ Scenario.blind_cv2 Scenario.det_cfg
                                 (Some (640, 480)) None
  = ((false, 0%Q), []).
Proof.
  apply (@detect_motion_none _ _ Scenario.blind_cv2). right. reflexivity.
Defined.

(** * Further properties of the camera manager *)

Section CaptureLoop.
Import PyQueue CameraManager.
Context {Frame : Type}.
Implicit Types (camera : CameraStream Frame) (mgr : Manager Frame)
               (inputs : list (read_outcome Frame * Q * Q)).

(** What one iteration leaves alone. *)
Lemma capture_step_keeps camera r t1 t2 :
  let c' := (capture_step camera r t1 t2).1 in
  is_running c' = is_running camera /\ capture c' = capture camera /\
  camera_id c' = camera_id camera /\ url c' = url camera /\
  name c' = name camera /\ enabled c' = enabled camera /\
  settings c' = settings camera.
Proof.
  unfold capture_step. destruct (capture camera) as [cap|] eqn:Hcap; [|done].
  destruct (isOpened cap); [|done]. destruct r; try done.
  simpl. destruct (_ =? _); [|done]. by destruct (Qeq_bool _ _).
Qed.

Lemma capture_step_effects camera r t1 t2 :
  Forall (fun e => is_open e = false /\ is_thread_start e = false)
         (capture_step camera r t1 t2).2.
Proof.
  unfold capture_step. destruct (capture camera) as [cap|]; [|by constructor].
  destruct (isOpened cap); [|by constructor].
  destruct r; simpl; [|by repeat constructor..].
  destruct (_ =? _); [|by repeat constructor].
  destruct (Qeq_bool _ _); by repeat constructor.
Qed.

Lemma capture_step_last_frame camera cap r t1 t2 :
  capture camera = Some cap -> isOpened cap = true ->
  let c' := (capture_step camera r t1 t2).1 in
  last_frame c' = match r with ReadOk frame => Some frame
                             | _ => last_frame camera end /\
  frame_count c' = match r with ReadOk _ => frame_count camera + 1
                              | _ => frame_count camera end.
Proof.
  intros Hcap Hopen. unfold capture_step. rewrite Hcap, Hopen.
  destruct r; try done.
  simpl. destruct (_ =? _); [|done]. by destruct (Qeq_bool _ _).
Qed.

Lemma publish_extends (q : Queue Frame) frame :
  maxsize (publish q frame) = maxsize q /\
  (items (publish q frame) = items q \/
   items (publish q frame) = items q ++ [frame]).
Proof.
  rewrite publish_unfold. destruct (full q); simpl; auto.
Qed.

Lemma capture_step_queue camera r t1 t2 :
  let c' := (capture_step camera r t1 t2).1 in
  maxsize (frame_queue c') = maxsize (frame_queue camera) /\
  exists added,
    items (frame_queue c') = items (frame_queue camera) ++ added /\
    added `sublist_of` match r with ReadOk frame => [frame] | _ => [] end.
Proof.
  assert (Hnone : forall l : list Frame, exists added : list Frame,
            items (frame_queue camera) = items (frame_queue camera) ++ added
            /\ added `sublist_of` l).
  { intros l. exists []. rewrite app_nil_r. split; [done|apply sublist_nil_l]. }
  unfold capture_step. destruct (capture camera) as [cap|]; [|by split].
  destruct (isOpened cap); [|by split]. destruct r; try by split.
  assert (Hpub : forall c : CameraStream Frame,
            frame_queue c = frame_queue camera ->
            maxsize (frame_queue (with_queue c (publish (frame_queue c) frame)))
              = maxsize (frame_queue camera) /\
            exists added,
              items (frame_queue (with_queue c (publish (frame_queue c) frame)))
                = items (frame_queue camera) ++ added /\
              added `sublist_of` [frame]).
  { intros c Hq. simpl. rewrite Hq.
    destruct (publish_extends (frame_queue camera) frame) as [Hmax [Hit|Hit]].
    - split; [done|]. exists []. rewrite app_nil_r. split; [done|].
      apply sublist_nil_l.
    - split; [done|]. by exists [frame]. }
  cbv zeta. destruct (_ =? _); [destruct (Qeq_bool _ _)|]; cbn [fst].
  - split; [done|]. apply Hnone.
  - by apply (Hpub (with_fps (with_frame camera frame t1) _)).
  - by apply (Hpub (with_frame camera frame t1)).
Qed.

Lemma capture_thread_stopped (run : bool) camera inputs :
  is_running camera && run = false ->
  capture_thread run camera inputs = (camera, []).
Proof. intros Hoff. destruct inputs as [|[[r t1] t2] rest]; simpl; [done|]. by rewrite Hoff. Qed.

Lemma capture_thread_cons (run : bool) camera r t1 t2 inputs :
  is_running camera && run = true ->
  capture_thread run camera ((r, t1, t2) :: inputs) =
    (let step := capture_step camera r t1 t2 in
     let rest := capture_thread run step.1 inputs in
     (rest.1, step.2 ++ rest.2)).
Proof.
  intros Hon. cbn [capture_thread]. rewrite Hon.
  destruct (capture_step camera r t1 t2) as [c' es]. cbn [fst snd].
  by destruct (capture_thread run c' inputs) as [c'' es'].
Qed.

Lemma capture_thread_identity (run : bool) inputs : forall camera,
  let res := capture_thread run camera inputs in
  is_running res.1 = is_running camera /\
  camera_id res.1 = camera_id camera /\
  url res.1 = url camera.
Proof.
  induction inputs as [|[[r t1] t2] inputs IH]; intros camera; [done|].
  destruct (is_running camera && run) eqn:Hon.
  - rewrite capture_thread_cons by done. simpl.
    destruct (capture_step_keeps camera r t1 t2) as (Hr & _ & Hid & Hu & _).
    destruct (IH (capture_step camera r t1 t2).1) as (Hr' & Hid' & Hu').
    repeat split; congruence.
  - by rewrite capture_thread_stopped.
Qed.

(** X3.  Whatever the reads do (succeed, fail or raise), the capture loop
    leaves the lifecycle of the stream alone: [is_running], the capture
    handle and the identity of the stream are as before, and it never
    opens a capture or starts a thread; a camera whose reads fail stays
    marked running on the same handle. *)
Theorem capture_thread_keeps_lifecycle (run : bool) inputs : forall camera,
  let res := capture_thread run camera inputs in
  is_running res.1 = is_running camera /\
  capture res.1 = capture camera /\
  camera_id res.1 = camera_id camera /\
  url res.1 = url camera /\
  Forall (fun e => is_open e = false /\ is_thread_start e = false) res.2.
Proof.
  induction inputs as [|[[r t1] t2] inputs IH]; intros camera.
  - simpl. repeat split. constructor.
  - destruct (is_running camera && run) eqn:Hon.
    + rewrite capture_thread_cons by done. simpl.
      destruct (capture_step_keeps camera r t1 t2)
        as (Hr & Hc & Hid & Hu & _).
      destruct (IH (capture_step camera r t1 t2).1)
        as (Hr' & Hc' & Hid' & Hu' & Heff).
      repeat split; try congruence.
      apply Forall_app. split; [apply capture_step_effects|done].
    + rewrite capture_thread_stopped by done. simpl. repeat split. constructor.
Qed.

(** X4.  The capture loop only appends to the frame queue: the frames
    queued before stay where they are, the queue keeps its capacity, and
    what is added is a subsequence of the frames read, in arrival order. *)
Theorem capture_thread_queue_grows (run : bool) inputs : forall camera,
  let res := capture_thread run camera inputs in
  maxsize (frame_queue res.1) = maxsize (frame_queue camera) /\
  exists added,
    items (frame_queue res.1) = items (frame_queue camera) ++ added /\
    added `sublist_of` frames_read inputs.
Proof.
  induction inputs as [|[[r t1] t2] inputs IH]; intros camera.
  - simpl. split; [done|]. exists []. by rewrite app_nil_r.
  - destruct (is_running camera && run) eqn:Hon.
    + rewrite capture_thread_cons by done. simpl.
      destruct (capture_step_queue camera r t1 t2) as (Hm & a1 & Hi & Hs).
      destruct (IH (capture_step camera r t1 t2).1) as (Hm' & a2 & Hi' & Hs').
      split; [congruence|]. exists (a1 ++ a2). split.
      * rewrite Hi', Hi. by rewrite app_assoc.
      * unfold frames_read. simpl. apply sublist_app; [|done].
        by destruct r.
    + rewrite capture_thread_stopped by done. simpl. split; [done|].
      exists []. rewrite app_nil_r. split; [done|]. apply sublist_nil_l.
Qed.

(** The stream after a loop that runs on an opened capture. *)
Lemma capture_thread_latest inputs : forall camera cap,
  is_running camera = true -> capture camera = Some cap ->
  isOpened cap = true ->
  let res := capture_thread true camera inputs in
  last_frame res.1 = match last (frames_read inputs) with
                     | Some frame => Some frame
                     | None => last_frame camera
                     end /\
  frame_count res.1 = frame_count camera
                      + Z.of_nat (length (frames_read inputs)).
Proof.
  induction inputs as [|[[r t1] t2] inputs IH]; intros camera cap Hrun Hcap Hopen.
  - simpl. split; [done|lia].
  - rewrite capture_thread_cons by (by rewrite Hrun).
    destruct (capture_step_keeps camera r t1 t2) as (Hr & Hc & _).
    destruct (capture_step_last_frame camera cap r t1 t2 Hcap Hopen)
      as [Hlast Hcount].
    destruct (IH (capture_step camera r t1 t2).1 cap) as [IHlast IHcount];
      [congruence..|].
    cbn zeta. cbn [fst]. rewrite IHlast, IHcount, Hlast, Hcount.
    unfold frames_read. cbn [flat_map fst].
    fold (frames_read inputs).
    destruct r as [frame| |]; cbn [app].
    + split.
      * rewrite last_cons. by destruct (last (frames_read inputs)).
      * cbn [length]. lia.
    + done.
    + done.
Qed.

(** X1.  While the manager and the camera are running on an opened
    capture, [get_frame] answers with the frame of the latest read that
    succeeded, whatever failed reads came after it, and with what it
    answered before when no read succeeded. *)
Theorem get_frame_latest mgr cid camera cap inputs :
  cameras mgr !! cid = Some camera -> running mgr = true ->
  is_running camera = true -> capture camera = Some cap ->
  isOpened cap = true ->
  get_frame (run_capture mgr cid inputs) cid =
    match last (frames_read inputs) with
    | Some frame => Some frame
    | None => get_frame mgr cid
    end.
Proof.
  intros Hcam Hrun Hcrun Hcap Hopen.
  unfold get_frame, run_capture. rewrite Hcam, Hrun. simpl.
  rewrite lookup_insert_eq.
  by destruct (capture_thread_latest inputs camera cap Hcrun Hcap Hopen) as [-> _].
Qed.

(** X2.  Under the same conditions the [frame_count] that
    [get_camera_info] reports grows by exactly the number of reads that
    succeeded; failed and raising reads are not counted, and the other
    reported fields but [fps] stay as they were. *)
Theorem get_camera_info_counts_frames mgr cid camera cap inputs :
  cameras mgr !! cid = Some camera -> running mgr = true ->
  is_running camera = true -> capture camera = Some cap ->
  isOpened cap = true ->
  exists info,
    get_camera_info (run_capture mgr cid inputs) cid = Some info /\
    ci_frame_count info
      = frame_count camera + Z.of_nat (length (frames_read inputs)) /\
    ci_id info = camera_id camera /\ ci_url info = url camera /\
    ci_is_running info = true.
Proof.
  intros Hcam Hrun Hcrun Hcap Hopen.
  unfold get_camera_info, run_capture. rewrite Hcam, Hrun. simpl.
  rewrite lookup_insert_eq. eexists. split; [reflexivity|]. simpl.
  destruct (capture_thread_latest inputs camera cap Hcrun Hcap Hopen) as [_ ->].
  destruct (capture_thread_identity true inputs camera) as (Hr & Hid & Hu).
  repeat split; congruence.
Qed.

End CaptureLoop.

Section Lifecycle.
Import PyQueue CameraManager.
Context {Frame : Type}.
Implicit Types (camera : CameraStream Frame) (mgr : Manager Frame).

Lemma stop_camera_unknown mgr cid :
  cameras mgr !! cid = None -> stop_camera mgr cid = (mgr, []).
Proof. intros Hcam. unfold stop_camera. by rewrite Hcam. Qed.

Lemma stop_camera_known mgr cid camera :
  cameras mgr !! cid = Some camera ->
  (stop_camera mgr cid).1 =
    mkManager (<[cid := with_capture camera None false]> (cameras mgr))
              (running mgr) (threads mgr ∖ {[cid]}).
Proof. intros Hcam. unfold stop_camera. by rewrite Hcam. Qed.

Lemma stop_camera_lookup mgr cid other :
  cameras (stop_camera mgr cid).1 !! other =
    if decide (other = cid)
    then (fun c => with_capture c None false) <$> cameras mgr !! other
    else cameras mgr !! other.
Proof.
  destruct (cameras mgr !! cid) as [camera|] eqn:Hcam.
  - rewrite (stop_camera_known _ _ camera) by done. simpl.
    case_decide as Heq.
    + subst. by rewrite lookup_insert_eq, Hcam.
    + by rewrite lookup_insert_ne.
  - rewrite stop_camera_unknown by done. simpl.
    case_decide as Heq; [|done]. subst. by rewrite Hcam.
Qed.

Lemma stop_camera_running_flag mgr cid :
  running (stop_camera mgr cid).1 = running mgr.
Proof.
  destruct (cameras mgr !! cid) as [camera|] eqn:Hcam.
  - by rewrite (stop_camera_known _ _ camera).
  - by rewrite stop_camera_unknown.
Qed.

Lemma stop_camera_not_running mgr cid :
  camera_running (stop_camera mgr cid).1 cid = false.
Proof.
  unfold camera_running. rewrite stop_camera_lookup, decide_True by done.
  by destruct (cameras mgr !! cid).
Qed.

(** X5.  [stop_camera] is idempotent and leaves the camera stopped: a
    second call changes nothing, the camera is not running, the capture
    loop does nothing on it any more, and every other camera is as before.
    The last frame is not cleared: [get_frame] answers after the stop what
    it answered before. *)
Theorem stop_camera_idempotent mgr cid :
  let stopped := (stop_camera mgr cid).1 in
  (stop_camera stopped cid).1 = stopped /\
  camera_running stopped cid = false /\
  (forall inputs, run_capture stopped cid inputs = stopped) /\
  (forall other, get_frame stopped other = get_frame mgr other) /\
  (forall other, other <> cid ->
     cameras stopped !! other = cameras mgr !! other).
Proof.
  intros stopped. unfold stopped.
  destruct (cameras mgr !! cid) as [camera|] eqn:Hcam.
  - rewrite (stop_camera_known mgr cid camera) by done.
    set (camera' := with_capture camera None false).
    set (mgr' := mkManager _ _ _).
    assert (Hcam' : cameras mgr' !! cid = Some camera')
      by (simpl; apply lookup_insert_eq).
    repeat split.
    + rewrite (stop_camera_known _ _ camera') by done. unfold mgr'. simpl.
      rewrite insert_insert_eq. f_equal. apply difference_twice_L.
    + unfold camera_running. by rewrite Hcam'.
    + intros inputs. unfold run_capture. rewrite Hcam'.
      rewrite capture_thread_stopped by done. unfold mgr'. simpl.
      by rewrite insert_insert_eq.
    + intros other. unfold get_frame, mgr'. simpl.
      destruct (decide (other = cid)) as [->|Hne].
      * by rewrite lookup_insert_eq, Hcam.
      * by rewrite lookup_insert_ne.
    + intros other Hne. unfold mgr'. simpl. by rewrite lookup_insert_ne.
  - rewrite (stop_camera_unknown mgr cid) by done. simpl. repeat split.
    + by rewrite stop_camera_unknown.
    + unfold camera_running. by rewrite Hcam.
    + intros inputs. unfold run_capture. by rewrite Hcam.
Qed.

(** X6.  On a registered camera, stopping and starting compose: after a
    stop, a [start_camera] whose open succeeds answers [True] and leaves
    the camera running; a further [start_camera] on the running camera
    answers [True] without an open attempt or any other effect, whatever
    the backend would have said; and a stop after the start leaves it
    stopped again.  The last frame survives the restart. *)
Theorem start_after_stop mgr cid camera :
  cameras mgr !! cid = Some camera ->
  let stopped := (stop_camera mgr cid).1 in
  let started := (start_camera stopped cid Opened).1.1 in
  (start_camera stopped cid Opened).1.2 = true /\
  camera_running started cid = true /\
  (forall o, start_camera started cid o = (started, true, [])) /\
  camera_running (stop_camera started cid).1 cid = false /\
  get_frame started cid = get_frame mgr cid.
Proof.
  intros Hcam stopped started.
  assert (Hstopped : cameras stopped !! cid
                     = Some (with_capture camera None false)).
  { unfold stopped. rewrite (stop_camera_known _ _ camera) by done.
    simpl. apply lookup_insert_eq. }
  pose proof (start_camera_opened stopped cid _ Hstopped eq_refl) as Hopen.
  unfold started.
  destruct (start_camera stopped cid Opened) as [[mgr' ok] effs] eqn:Hstart.
  destruct Hopen as (-> & Hrunning & ->). simpl.
  assert (Hcam' : exists c, cameras mgr' !! cid = Some c /\
                            is_running c = true /\
                            last_frame c = last_frame camera).
  { unfold start_camera in Hstart. rewrite Hstopped in Hstart. simpl in Hstart.
    injection Hstart as <-. simpl. rewrite lookup_insert_eq. by eexists. }
  destruct Hcam' as (c & Hc & Hcrun & Hlast).
  repeat split; try done.
  - intros o. unfold start_camera. by rewrite Hc, Hcrun.
  - apply stop_camera_not_running.
  - unfold get_frame. by rewrite Hc, Hcam.
Qed.

(** X7.  [remove_camera] of an id the manager does not hold answers
    [False] and changes neither the manager nor the table, even when the
    table has a row of that id.  Of an id it holds, the camera is gone
    from the manager in every case ([get_frame] and [get_camera_info]
    answer [None], no thread is left).  If the table has its row and a
    recording or an event refers to the camera, the commit raises and the
    table is as it was, the row still in it; otherwise the call answers
    [True] and the row is gone from the table.  Other cameras and rows are
    untouched either way. *)
Theorem remove_camera_spec mgr (table : gmap Z Camera) (referencing : list Z)
    cid :
  let res := remove_camera mgr table referencing cid in
  (match cameras mgr !! cid with
   | None => (res = (Returned false, mgr, table))
   | Some _ =>
     get_frame res.1.2 cid = None /\
     get_camera_info res.1.2 cid = None /\
     (cid ∉ threads res.1.2) /\
     (is_Some (table !! cid) -> cid ∈ referencing ->
      res.1.1 = CommitRaised /\ res.2 = table) /\
     (~ (is_Some (table !! cid) /\ cid ∈ referencing) ->
      res.1.1 = Returned true /\ res.2 = delete cid table /\
      res.2 !! cid = None)
   end) /\
  (forall other, other <> cid ->
     cameras res.1.2 !! other = cameras mgr !! other /\
     res.2 !! other = table !! other).
Proof.
  intros res. unfold res, remove_camera.
  destruct (cameras mgr !! cid) as [camera|] eqn:Hcam; [|done].
  rewrite (stop_camera_known _ _ camera) by done.
  cbn [fst snd cameras running threads].
  set (mgr2 := mkManager _ _ _).
  assert (Hgone : get_frame mgr2 cid = None /\
                  get_camera_info mgr2 cid = None /\
                  (cid ∉ threads mgr2)).
  { unfold get_frame, get_camera_info, mgr2. cbn [cameras threads].
    rewrite lookup_delete_eq. repeat split.
    intros [_ Hn]%elem_of_difference. apply Hn. by apply elem_of_singleton. }
  assert (Hothers : forall other, other <> cid ->
                    cameras mgr2 !! other = cameras mgr !! other).
  { intros other Hne. unfold mgr2. cbn [cameras].
    by rewrite lookup_delete_ne, lookup_insert_ne. }
  destruct Hgone as (Hframe & Hinfo & Hthread).
  destruct (table !! cid) as [row|] eqn:Hrow;
    [case_bool_decide as Href|]; cbn [fst snd].
  - split; [split; [done|split; [done|split; [done|split]]]|].
    + done.
    + intros Hnot. exfalso. apply Hnot. split; [by eexists|done].
    + intros other Hne. split; [by apply Hothers|done].
  - split; [split; [done|split; [done|split; [done|split]]]|].
    + intros _ Hin. done.
    + intros _. split; [done|]. split; [done|]. apply lookup_delete_eq.
    + intros other Hne. split; [by apply Hothers|].
      by rewrite lookup_delete_ne.
  - split; [split; [done|split; [done|split; [done|split]]]|].
    + intros [row Hsome]. done.
    + intros _. split; [done|]. split; [by rewrite delete_id|done].
    + intros other Hne. split; [by apply Hothers|done].
Qed.

Lemma stop_all_lookup (ks : list Z) : forall mgr cid,
  let mgr' := foldl (fun m k => (stop_camera m k).1) mgr ks in
  running mgr' = running mgr /\
  cameras mgr' !! cid =
    if decide (cid ∈ ks)
    then (fun c => with_capture c None false) <$> cameras mgr !! cid
    else cameras mgr !! cid.
Proof.
  induction ks as [|k ks IH]; intros mgr cid.
  - cbn [foldl]. split; [done|]. rewrite decide_False; [done|].
    apply not_elem_of_nil.
  - cbn [foldl]. destruct (IH (stop_camera mgr k).1 cid) as [Hrun Hlook].
    cbv zeta in Hrun, Hlook. cbv zeta.
    rewrite Hrun, Hlook, stop_camera_running_flag, stop_camera_lookup.
    split; [done|].
    destruct (decide (cid = k)) as [->|Hne].
    + rewrite (decide_True (P := k ∈ k :: ks)) by (by left).
      destruct (cameras mgr !! k); by case_decide.
    + destruct (decide (cid ∈ ks)) as [Hin|Hnin].
      * by rewrite (decide_True (P := cid ∈ k :: ks)) by (by right).
      * rewrite (decide_False (P := cid ∈ k :: ks)); [done|].
        intros [?|?]%elem_of_cons; done.
Qed.

(** X8.  [CameraManager.stop] clears [running] and stops every registered
    camera: none is running afterwards, each is its old stream with the
    capture handle dropped, and [get_frame] still answers with the last
    frame of each. *)
Theorem stop_stops_every_camera mgr :
  running (stop mgr) = false /\
  (forall cid, camera_running (stop mgr) cid = false) /\
  (forall cid, cameras (stop mgr) !! cid
               = (fun c => with_capture c None false) <$> cameras mgr !! cid) /\
  (forall cid, get_frame (stop mgr) cid = get_frame mgr cid).
Proof.
  assert (Hlook : forall cid, cameras (stop mgr) !! cid
            = (fun c => with_capture c None false) <$> cameras mgr !! cid).
  { intros cid. unfold stop.
    destruct (stop_all_lookup (elements (dom (cameras mgr)))
                (mkManager (cameras mgr) false (threads mgr)) cid) as [_ ->].
    simpl. case_decide as Hin; [done|].
    destruct (cameras mgr !! cid) as [c|] eqn:Hc; [|done].
    exfalso. apply Hin. apply elem_of_elements, elem_of_dom. by eexists. }
  repeat split; try done.
  - unfold stop.
    by destruct (stop_all_lookup (elements (dom (cameras mgr)))
                   (mkManager (cameras mgr) false (threads mgr)) 0) as [-> _].
  - intros cid. unfold camera_running. rewrite Hlook.
    by destruct (cameras mgr !! cid).
  - intros cid. unfold get_frame. rewrite Hlook.
    by destruct (cameras mgr !! cid).
Qed.

(** X9.  [add_camera] fails only on a non-empty settings text that
    [json.loads] rejects.  Otherwise the camera is registered under its id
    with a fresh stream, whatever stream the id had before:
    [get_camera_info] answers with the id, name, url and enabled flag of
    the row, no frame counted and a rate of 0, [get_frame] has no frame
    and the frame queue is empty; a disabled
    camera makes no open attempt and an enabled one exactly one; the
    camera runs afterwards exactly when it is enabled and the open
    succeeded; other cameras are untouched. *)
Theorem add_camera_spec (parses : string -> bool) mgr (camera : Camera)
    (o : open_outcome) :
  match add_camera parses mgr camera o with
  | None =>
    exists s, cam_settings camera = Some s /\ s <> "" /\ parses s = false
  | Some (mgr', effs) =>
    length (filter is_open effs)
      = (if cam_enabled camera then 1%nat else 0%nat) /\
    camera_running mgr' (cam_id camera)
      = cam_enabled camera && match o with Opened => true | _ => false end /\
    get_frame mgr' (cam_id camera) = None /\
    get_camera_info mgr' (cam_id camera)
      = Some (mkCameraInfo
                (cam_id camera) (cam_name camera) (cam_url camera)
                (cam_enabled camera)
                (cam_enabled camera
                 && match o with Opened => true | _ => false end)
                0%Q 0) /\
    frame_queue <$> cameras mgr' !! cam_id camera = Some new_frame_queue /\
    (forall other, other <> cam_id camera ->
       cameras mgr' !! other = cameras mgr !! other)
  end.
Proof.
  unfold add_camera.
  set (text := match cam_settings camera with
               | Some s => _ | None => _ end).
  assert (Htext : match text with
                   | None => exists s, cam_settings camera = Some s /\
                                       s <> "" /\ parses s = false
                   | Some _ => True end).
  { unfold text. destruct (cam_settings camera) as [s|]; [|done].
    case_bool_decide as Hs; [done|].
    destruct (parses s) eqn:Hp; [done|]. by exists s. }
  destruct text as [txt|]; [|done]. clear Htext.
  set (stream := new_stream _ _ _ _ txt).
  set (mgr1 := mkManager _ _ _).
  assert (Hcam1 : cameras mgr1 !! cam_id camera = Some stream)
    by (simpl; apply lookup_insert_eq).
  destruct (cam_enabled camera) eqn:Hen.
  - unfold start_camera. rewrite Hcam1. simpl.
    destruct o; simpl; unfold camera_running, get_frame, get_camera_info;
      simpl; rewrite ?lookup_insert_eq, ?Hcam1; simpl; rewrite ?Hen.
    + repeat split; try done.
      * apply bool_decide_eq_true. set_solver.
      * intros other Hne. by rewrite !lookup_insert_ne.
    + repeat split; try done.
      intros other Hne. by rewrite !lookup_insert_ne.
    + repeat split; try done.
      intros other Hne. by rewrite !lookup_insert_ne.
  - unfold camera_running, get_frame, get_camera_info. rewrite Hcam1. simpl.
    rewrite ?Hen.
    repeat split; try done. intros other Hne. by rewrite lookup_insert_ne.
Qed.

End Lifecycle.

(** X1 (witness): reads of frame 7, a failure, frame 9 and an exception:
    [get_frame] answers with frame 9. *)
Lemma get_frame_latest_witness :
  CameraManager.get_frame
    (CameraManager.run_capture Scenario.live_manager 1 Scenario.mixed_reads) 1
  = Some 9.
Proof.
  rewrite (get_frame_latest Scenario.live_manager 1 Scenario.live_camera
             (CameraManager.mkCapture "rtsp://10.0.0.7/stream" true));
    reflexivity.
Defined.

(** X2 (witness): the same reads are counted as two frames. *)
Lemma get_camera_info_counts_frames_witness :
  exists info,
    CameraManager.get_camera_info
      (CameraManager.run_capture Scenario.live_manager 1 Scenario.mixed_reads) 1
    = Some info /\
    CameraManager.ci_frame_count info = 2.
Proof.
  destruct (get_camera_info_counts_frames
              Scenario.live_manager 1 Scenario.live_camera
              (CameraManager.mkCapture "rtsp://10.0.0.7/stream" true)
              Scenario.mixed_reads)
    as (info & Hinfo & Hcount & _); try reflexivity.
  exists info. split; [exact Hinfo | exact Hcount].
Defined.

(** X6 (witness): the running camera of the example is stopped and
    started again. *)
Lemma start_after_stop_witness :
  let stopped := (CameraManager.stop_camera Scenario.live_manager 1).1 in
  let started :=
    (CameraManager.start_camera stopped 1 CameraManager.Opened).1.1 in
  CameraManager.camera_running stopped 1 = false /\
  CameraManager.camera_running started 1 = true /\
  CameraManager.start_camera started 1 CameraManager.NotOpened
    = (started, true, []).
Proof.
  intros stopped started.
  destruct (start_after_stop Scenario.live_manager 1 Scenario.live_camera)
    as (_ & Hrun & Hagain & _); [reflexivity|].
  split; [reflexivity|]. split; [exact Hrun | apply Hagain].
Defined.

(** * Further properties of the retention passes *)

Section Eviction.
Import RecordingManager Routes.
Implicit Types (w : World) (cfg : Config) (files : gmap string File)
               (rows marked : list Recording) (r : Recording)
               (res : PassResult).

Lemma unlink_all_subseteq rows : forall files, unlink_all rows files ⊆ files.
Proof.
  induction rows as [|r rows IH]; intros files; [done|].
  rewrite unlink_all_cons. etrans; [apply IH|apply delete_subseteq].
Qed.

Lemma unlink_all_lookup_removed rows files path :
  is_Some (files !! path) -> unlink_all rows files !! path = None ->
  path ∈ map file_path rows.
Proof.
  intros [f Hf] Hgone.
  destruct (decide (path ∈ map file_path rows)) as [|Hnotin]; [done|].
  rewrite unlink_all_lookup_other in Hgone by done. congruence.
Qed.

Lemma commit_deletes_sublist rows marked :
  commit_deletes rows marked `sublist_of` rows.
Proof. apply sublist_filter. Qed.

Lemma commit_deletes_elem rows marked r :
  NoDup (map id rows) -> marked ⊆ rows -> r ∈ rows ->
  r ∉ commit_deletes rows marked -> r ∈ marked.
Proof.
  intros Hnd Hsub Hr Hnot. unfold commit_deletes in Hnot.
  rewrite list_elem_of_filter in Hnot.
  destruct (decide (id r ∈ map id marked)) as [Hin|Hnin].
  - apply list_elem_of_In, in_map_iff in Hin as (r' & Hid & Hr'%list_elem_of_In).
    assert (r' = r) as ->; [|done].
    eapply same_id_same_row; eauto.
  - exfalso. apply Hnot. split; [|done].
    apply negb_prop_intro. by intros ?%bool_decide_unpack.
Qed.

(** What both passes have in common: the disk afterwards is the disk
    without the files of the rows marked, the catalog is committed unless
    the pass raised, and every row marked is a row of the catalog. *)
Lemma cleanup_is_eviction cfg now w :
  let res := _cleanup_old_recordings cfg now w in
  fs (world res) = unlink_all (deleted res) (fs w) /\
  catalog (world res) =
    (if raised res then catalog w
     else commit_deletes (catalog w) (deleted res)) /\
  deleted res ⊆ catalog w.
Proof.
  intros res. unfold res, _cleanup_old_recordings.
  set (targets := old_recordings cfg now (catalog w)).
  destruct (cleanup_loop_spec targets (fs w) [] []) as [gone' ->].
  assert (Hsub : take_while (deletable (fs w)) targets ⊆ catalog w).
  { intros r Hr. apply (elem_of_prefix _ targets), list_elem_of_filter in Hr;
      [by destruct Hr|apply take_while_prefix]. }
  destruct (forallb (deletable (fs w)) targets) eqn:Hall; simpl.
  - by rewrite (take_while_all _ _ Hall) in *.
  - done.
Qed.

Lemma enforce_is_eviction cfg w :
  let res := _enforce_storage_limit cfg w in
  fs (world res) = unlink_all (deleted res) (fs w) /\
  catalog (world res) =
    (if raised res then catalog w
     else commit_deletes (catalog w) (deleted res)) /\
  deleted res ⊆ catalog w.
Proof.
  intros res.
  destruct (enforce_storage_limit_spec cfg w)
    as (Hpre & _ & _ & _ & _ & _ & Hfs & Hcat).
  repeat split; try done.
  intros r Hr. apply (elem_of_prefix _ _ _ Hr) in Hpre.
  by rewrite order_by_created_asc_perm in Hpre.
Qed.

Lemma is_eviction cfg now w res :
  res ∈ [_cleanup_old_recordings cfg now w; _enforce_storage_limit cfg w] ->
  fs (world res) = unlink_all (deleted res) (fs w) /\
  catalog (world res) =
    (if raised res then catalog w
     else commit_deletes (catalog w) (deleted res)) /\
  deleted res ⊆ catalog w.
Proof.
  intros [->|[->|[]%elem_of_nil]%elem_of_cons]%elem_of_cons.
  - apply cleanup_is_eviction.
  - apply enforce_is_eviction.
Qed.

(** X10.  Neither eviction pass ever adds or alters anything, and neither
    touches a file the catalog does not name: the disk afterwards is a part
    of the disk before, the catalog afterwards is the catalog before with
    some rows left out, in the same order, and a file that is gone was the
    file of a catalogued Recording. *)
Theorem eviction_only_removes cfg now w res :
  res ∈ [_cleanup_old_recordings cfg now w; _enforce_storage_limit cfg w] ->
  fs (world res) ⊆ fs w /\
  catalog (world res) `sublist_of` catalog w /\
  (forall path, is_Some (fs w !! path) -> fs (world res) !! path = None ->
     exists r, r ∈ catalog w /\ file_path r = path).
Proof.
  intros (Hfs & Hcat & Hsub)%is_eviction. rewrite Hfs, Hcat. repeat split.
  - apply unlink_all_subseteq.
  - destruct (raised res); [done|apply commit_deletes_sublist].
  - intros path Hsome Hgone.
    apply unlink_all_lookup_removed in Hgone; [|done].
    apply list_elem_of_In, in_map_iff in Hgone as (r & Hpath & Hr%list_elem_of_In).
    exists r. split; [by apply Hsub|done].
Qed.

(** X11.  On a catalog keyed by [id], a Recording that an eviction pass
    takes out of the catalog has no file left on disk: no pass removes a
    row and leaves its file behind. *)
Theorem eviction_leaves_no_orphan_file cfg now w res r :
  res ∈ [_cleanup_old_recordings cfg now w; _enforce_storage_limit cfg w] ->
  NoDup (map id (catalog w)) ->
  r ∈ catalog w -> r ∉ catalog (world res) ->
  fs (world res) !! file_path r = None.
Proof.
  intros (Hfs & Hcat & Hsub)%is_eviction Hnd Hr Hgone.
  rewrite Hfs. apply unlink_all_lookup_gone.
  rewrite Hcat in Hgone. destruct (raised res); [done|].
  by apply (commit_deletes_elem (catalog w)).
Qed.

Lemma same_path_same_row rows r r' :
  NoDup (map file_path rows) -> r ∈ rows -> r' ∈ rows ->
  file_path r = file_path r' -> r = r'.
Proof.
  induction rows as [|x rows IH]; simpl; intros Hnd Hr Hr' Hpath.
  - by apply elem_of_nil in Hr.
  - apply NoDup_cons in Hnd as [Hx Hnd].
    apply elem_of_cons in Hr as [->|Hr]; apply elem_of_cons in Hr' as [->|Hr'].
    + done.
    + exfalso. apply Hx. rewrite Hpath. apply list_elem_of_In, in_map.
      by apply list_elem_of_In.
    + exfalso. apply Hx. rewrite <- Hpath. apply list_elem_of_In, in_map.
      by apply list_elem_of_In.
    + by apply IH.
Qed.

Lemma first_with_id_unique rows r :
  NoDup (map id rows) -> r ∈ rows -> first_with_id rows (id r) = Some r.
Proof.
  intros Hnd Hr. unfold first_with_id.
  destruct (list_find (fun r' => id r' = id r) rows) as [[i r']|] eqn:Hfind.
  - apply list_find_Some in Hfind as (Hi & Hid & _). simpl. f_equal.
    eapply same_id_same_row; eauto. by eapply list_elem_of_lookup_2.
  - apply list_find_None in Hfind. rewrite Forall_forall in Hfind.
    by destruct (Hfind r Hr).
Qed.

Lemma sublist_NoDup_ids rows rows' :
  rows' `sublist_of` rows -> NoDup (map id rows) -> NoDup (map id rows').
Proof.
  intros Hsub Hnd. eapply sublist_NoDup; [exact Hnd|].
  change (id <$> rows' `sublist_of` id <$> rows). by apply fmap_sublist.
Qed.

(** X12.  A pass that does not raise does not break the download of what
    it keeps: on a catalog keyed by [id] in which no two Recordings share a
    file, [download_recording] answers for every surviving Recording after
    the pass what it answered before. *)
Theorem eviction_keeps_downloads cfg now w res r :
  res ∈ [_cleanup_old_recordings cfg now w; _enforce_storage_limit cfg w] ->
  NoDup (map id (catalog w)) -> NoDup (map file_path (catalog w)) ->
  raised res = false ->
  r ∈ catalog (world res) ->
  download_recording (world res) (id r) = download_recording w (id r).
Proof.
  intros Hres Hnd Hpaths Hraised Hr.
  apply is_eviction in Hres as (Hfs & Hcat & Hsub).
  assert (Hsublist : catalog (world res) `sublist_of` catalog w)
    by (rewrite Hcat, Hraised; apply commit_deletes_sublist).
  assert (Hr0 : r ∈ catalog w) by by eapply elem_of_sublist.
  unfold download_recording.
  rewrite (first_with_id_unique (catalog (world res)))
    by eauto using sublist_NoDup_ids.
  rewrite (first_with_id_unique (catalog w)) by done.
  rewrite Hfs, unlink_all_lookup_other; [done|].
  intros Hin. apply list_elem_of_In, in_map_iff in Hin
    as (r' & Hpath & Hr'%list_elem_of_In).
  assert (r' = r) as -> by (eapply same_path_same_row; eauto).
  rewrite Hcat, Hraised in Hr.
  by apply (commit_deletes_not_elem (catalog w) (deleted res) r).
Qed.

(** X13.  A pass that raises leaves rows whose files it has already
    unlinked: on a catalog keyed by [id], every Recording the pass had
    marked before the error is still in the catalog, and its download
    answers 404, "Recording file not found". *)
Theorem raised_pass_breaks_downloads cfg now w res r :
  res ∈ [_cleanup_old_recordings cfg now w; _enforce_storage_limit cfg w] ->
  NoDup (map id (catalog w)) ->
  raised res = true ->
  r ∈ deleted res ->
  r ∈ catalog (world res) /\
  download_recording (world res) (id r) = NotFound "Recording file not found".
Proof.
  intros (Hfs & Hcat & Hsub)%is_eviction Hnd Hraised Hr.
  rewrite Hcat, Hraised. split; [by apply Hsub|].
  unfold download_recording. rewrite Hcat, Hraised.
  rewrite first_with_id_unique by auto.
  by rewrite Hfs, unlink_all_lookup_gone.
Qed.

End Eviction.

Section EvictionRounds.
Import RecordingManager.
Implicit Types (w : World) (cfg : Config) (files : gmap string File)
               (rows marked : list Recording) (r : Recording).

Lemma world_eta w : mkWorld (catalog w) (fs w) = w.
Proof. by destruct w. Qed.

(** An age pass that does not raise leaves the rows not older than the
    cutoff. *)
Lemma cleanup_not_raised cfg now w :
  NoDup (map id (catalog w)) ->
  raised (_cleanup_old_recordings cfg now w) = false ->
  catalog (world (_cleanup_old_recordings cfg now w))
  = filter (fun r => ~ created_at r < now - timedelta_days (retention_days cfg))
           (catalog w).
Proof.
  intros Hnd. unfold _cleanup_old_recordings.
  set (targets := old_recordings cfg now (catalog w)).
  destruct (cleanup_loop_spec targets (fs w) [] []) as [gone' ->].
  destruct (forallb (deletable (fs w)) targets) eqn:Hall; [|done].
  simpl. intros _. rewrite (take_while_all _ _ Hall).
  unfold targets, old_recordings.
  rewrite <- (commit_deletes_filter _ _ Hnd). f_equal.
  apply list_filter_iff. intros r. apply bool_decide_spec.
Qed.

Lemma old_recordings_none cfg now rows :
  Forall (fun r => ~ created_at r < now - timedelta_days (retention_days cfg))
         rows ->
  old_recordings cfg now rows = [].
Proof.
  unfold old_recordings. induction 1 as [|r rows Hr _ IH]; [done|].
  rewrite filter_cons, IH. rewrite decide_False; [done|].
  by intros ?%bool_decide_unpack.
Qed.

(** X14.  The age pass is idempotent: after a pass that did not raise, on
    a catalog keyed by [id], a further pass at the same or an earlier clock
    reading finds nothing to delete and leaves catalog and disk as they
    are. *)
Theorem cleanup_twice cfg now now' w :
  NoDup (map id (catalog w)) ->
  raised (_cleanup_old_recordings cfg now w) = false ->
  now' <= now ->
  let w1 := world (_cleanup_old_recordings cfg now w) in
  _cleanup_old_recordings cfg now' w1 = mkResult false w1 [] [].
Proof.
  intros Hnd Hraised Hle w1.
  assert (Hnone : old_recordings cfg now' (catalog w1) = []).
  { apply old_recordings_none. unfold w1.
    rewrite cleanup_not_raised by done.
    apply Forall_forall. intros r [Hr _]%list_elem_of_filter. lia. }
  unfold _cleanup_old_recordings. rewrite Hnone. simpl.
  by rewrite commit_deletes_nil, world_eta.
Qed.

Lemma commit_deletes_all rows sorted :
  sorted ≡ₚ rows -> commit_deletes rows sorted = [].
Proof.
  intros Hperm. unfold commit_deletes. apply filter_ids_none.
  intros r Hr. apply list_elem_of_In, in_map, list_elem_of_In.
  by rewrite Hperm.
Qed.

(** After a capacity pass that does not raise, with every recorded file
    below the storage root, the bytes on disk are within the limit or the
    catalog is empty. *)
Lemma enforce_postcondition cfg w :
  Forall (fun r => under_storage cfg (file_path r) = true) (catalog w) ->
  raised (_enforce_storage_limit cfg w) = false ->
  let w1 := world (_enforce_storage_limit cfg w) in
  within_limit cfg (storage_usage cfg (fs w1)) = true \/ catalog w1 = [].
Proof.
  intros Hunder Hraised w1.
  destruct (enforce_storage_limit_spec cfg w)
    as (Hpre & _ & _ & Hstop & _ & _ & Hfs & Hcat).
  fold w1 in Hfs, Hcat. rewrite Hraised in Hstop, Hcat.
  destruct Hstop as [?|[Hlim|Hall]]; [done| |].
  - left. rewrite Hfs, <- total_after_storage_usage; [done|].
    apply Forall_forall. intros r Hr. rewrite Forall_forall in Hunder.
    apply Hunder. apply (elem_of_prefix _ _ _ Hr) in Hpre.
    by rewrite order_by_created_asc_perm in Hpre.
  - right. rewrite Hcat, Hall. apply commit_deletes_all.
    apply order_by_created_asc_perm.
Qed.

(** X15.  After a capacity pass that did not raise, with every recorded
    file below the storage root, [get_storage_info] reports a total within
    the configured limit, unless the pass has run out of Recordings to
    delete: then the catalog is empty. *)
Theorem storage_info_after_enforce cfg w :
  Forall (fun r => under_storage cfg (file_path r) = true) (catalog w) ->
  raised (_enforce_storage_limit cfg w) = false ->
  let w1 := world (_enforce_storage_limit cfg w) in
  let info := get_storage_info cfg (fs w1) in
  (inject_Z (total_size_bytes info) <= max_size_bytes cfg)%Q \/
  catalog w1 = [].
Proof.
  intros Hunder Hraised w1 info.
  destruct (enforce_postcondition cfg w Hunder Hraised) as [Hlim|Hempty].
  - left. unfold within_limit in Hlim. by apply Qle_bool_iff in Hlim.
  - by right.
Qed.

(** X16.  The capacity pass is idempotent under the same conditions: a
    second pass right after one that did not raise deletes nothing and
    leaves catalog and disk as they are. *)
Theorem enforce_twice cfg w :
  Forall (fun r => under_storage cfg (file_path r) = true) (catalog w) ->
  raised (_enforce_storage_limit cfg w) = false ->
  let w1 := world (_enforce_storage_limit cfg w) in
  _enforce_storage_limit cfg w1 = mkResult false w1 [] [].
Proof.
  intros Hunder Hraised w1.
  destruct (enforce_postcondition cfg w Hunder Hraised) as [Hlim|Hempty];
    fold w1 in Hlim || fold w1 in Hempty.
  - unfold _enforce_storage_limit. by rewrite Hlim.
  - clearbody w1. destruct w1 as [rows files]. simpl in Hempty. subst rows.
    unfold _enforce_storage_limit. simpl.
    by destruct (within_limit cfg (storage_usage cfg files)).
Qed.

(** X17.  A round of the cleanup loop that logs no error, on a catalog
    keyed by [id] whose files all lie below the storage root, leaves no
    Recording older than the retention horizon, keeps the remaining rows in
    their order, and ends within the storage limit or with an empty
    catalog. *)
Theorem storage_cleanup_round_converges cfg now w :
  NoDup (map id (catalog w)) ->
  Forall (fun r => under_storage cfg (file_path r) = true) (catalog w) ->
  (storage_cleanup_round cfg now w).1 = false ->
  let w' := (storage_cleanup_round cfg now w).2 in
  Forall (fun r => ~ created_at r < now - timedelta_days (retention_days cfg))
         (catalog w') /\
  catalog w' `sublist_of` catalog w /\
  fs w' ⊆ fs w /\
  (within_limit cfg (storage_usage cfg (fs w')) = true \/ catalog w' = []).
Proof.
  intros Hnd Hunder. unfold storage_cleanup_round.
  set (aged := _cleanup_old_recordings cfg now w).
  destruct (raised aged) eqn:Haged; [done|]. simpl. intros Henf.
  set (w1 := world aged) in *.
  set (enforced := _enforce_storage_limit cfg w1) in *.
  assert (Hcat1 : catalog w1 = filter _ (catalog w))
    by (by apply cleanup_not_raised).
  destruct (cleanup_is_eviction cfg now w) as (Hfs1 & _ & _).
  fold aged in Hfs1. fold w1 in Hfs1.
  destruct (enforce_is_eviction cfg w1) as (Hfs2 & Hcat2 & _).
  fold enforced in Hfs2, Hcat2. rewrite Henf in Hcat2.
  assert (Hsub2 : catalog (world enforced) `sublist_of` catalog w1)
    by (rewrite Hcat2; apply commit_deletes_sublist).
  assert (Hsub1 : catalog w1 `sublist_of` catalog w)
    by (rewrite Hcat1; apply sublist_filter).
  assert (Hunder1 : Forall (fun r => under_storage cfg (file_path r) = true)
                           (catalog w1)).
  { apply Forall_forall. intros r Hr. rewrite Forall_forall in Hunder.
    apply Hunder. by eapply elem_of_sublist. }
  repeat split.
  - apply Forall_forall. intros r Hr.
    apply (elem_of_sublist _ _ _ Hr) in Hsub2. rewrite Hcat1 in Hsub2.
    by apply list_elem_of_filter in Hsub2 as [? _].
  - by etrans.
  - rewrite Hfs2, Hfs1. etrans; apply unlink_all_subseteq.
  - by apply enforce_postcondition.
Qed.

End EvictionRounds.

Section RecordVideo.
Import RecordingManager.
Context {Frame : Type} `{VideoFrame Frame}.
Implicit Types (polls : list (bool * option Frame)) (written : list Frame).

Lemma record_loop_spec (fps width height : Z) polls :
  forall frame_count written,
  exists frames,
    record_loop fps width height polls frame_count written
      = written ++ (fit_frame width height <$> frames) /\
    frames `sublist_of` omap snd polls /\
    Z.of_nat (length frames) <= Z.max 0 (fps * 3600 - frame_count).
Proof.
  induction polls as [|[is_on frame] polls IH]; intros frame_count written.
  - exists []. simpl. rewrite app_nil_r. split; [done|]. split; [done|lia].
  - cbn [record_loop].
    destruct (is_on && (frame_count <? fps * 3600)) eqn:Hgo.
    + apply andb_true_iff in Hgo as [_ Hlt%Z.ltb_lt].
      destruct frame as [f|].
      * destruct (IH (frame_count + 1) (written ++ [fit_frame width height f]))
          as (frames & -> & Hsub & Hlen).
        exists (f :: frames). rewrite <- app_assoc. split; [done|].
        split; [by apply sublist_skip|]. simpl length. lia.
      * destruct (IH frame_count written) as (frames & -> & Hsub & Hlen).
        exists frames. split; [done|]. split; [done|lia].
    + exists []. simpl. rewrite app_nil_r. split; [done|].
      split; [apply sublist_nil_l|lia].
Qed.

(** X18.  [_record_video] writes at most [fps * 3600] frames, and none
    when [fps] is not positive; what it writes are frames that [get_frame]
    answered, in the order they were polled, each handed over as it is when
    its shape is the target (height, width) and resized to (width, height)
    otherwise; a poll without a frame writes nothing. *)
Theorem record_video_bounds (fps width height : Z) polls :
  exists frames,
    _record_video fps width height polls = fit_frame width height <$> frames /\
    frames `sublist_of` omap snd polls /\
    Z.of_nat (length (_record_video fps width height polls))
      <= Z.max 0 (fps * 3600) /\
    Forall (fun f => frame_shape f = (height, width) ->
                     fit_frame width height f = f) frames.
Proof.
  destruct (record_loop_spec fps width height polls 0 [])
    as (frames & Hout & Hsub & Hlen).
  exists frames. unfold _record_video. rewrite Hout. simpl.
  repeat split; try done.
  - rewrite length_fmap. lia.
  - apply Forall_forall. intros f _ Hshape. unfold fit_frame.
    by rewrite bool_decide_eq_true_2.
Qed.

(** X19.  [_record_video] honours the stop flag at every test of its loop
    condition: once [self.running] reads false, nothing that [get_frame]
    answers afterwards is written. *)
Theorem record_video_stops (fps width height : Z) pre frame post :
  _record_video fps width height (pre ++ (false, frame) :: post)
  = _record_video fps width height pre.
Proof.
  unfold _record_video. generalize 0 (@nil Frame).
  induction pre as [|[is_on f] pre IH]; intros frame_count written.
  - done.
  - simpl. destruct (is_on && (frame_count <? fps * 3600)); [|done].
    destruct f; apply IH.
Qed.

End RecordVideo.

(** X10 (witness): the age pass of the day 0/6/8 example. *)
Lemma eviction_only_removes_witness :
  let w := Scenario.age_world in
  let res := RecordingManager._cleanup_old_recordings
               Scenario.age_cfg (Scenario.day 8) w in
  RecordingManager.fs (RecordingManager.world res) ⊆ RecordingManager.fs w /\
  RecordingManager.catalog (RecordingManager.world res)
    `sublist_of` RecordingManager.catalog w.
Proof.
  intros w res.
  destruct (eviction_only_removes Scenario.age_cfg (Scenario.day 8) w res)
    as (Hfs & Hcat & _); [by left|]. by split.
Defined.

(** X11 (witness): the recording of day 0 leaves the catalog and has no
    file left. *)
Lemma eviction_leaves_no_orphan_file_witness :
  let res := RecordingManager._cleanup_old_recordings
               Scenario.age_cfg (Scenario.day 8) Scenario.age_world in
  RecordingManager.fs (RecordingManager.world res) !! "/var/nvr/1/d0.mp4"
  = None.
Proof.
  intros res.
  apply (eviction_leaves_no_orphan_file
           Scenario.age_cfg (Scenario.day 8) Scenario.age_world res
           (Scenario.rec_day 1 0 "/var/nvr/1/d0.mp4")).
  - by left.
  - apply (bool_decide_unpack _). vm_compute. exact I.
  - by left.
  - intros Hin.
    assert (Hid : 1 ∈ map RecordingManager.id
                    (RecordingManager.catalog (RecordingManager.world res))).
    { apply list_elem_of_In.
      apply (in_map RecordingManager.id) with
        (x := Scenario.rec_day 1 0 "/var/nvr/1/d0.mp4").
      by apply list_elem_of_In. }
    revert Hid. apply (bool_decide_unpack _). vm_compute. exact I.
Defined.

(** X12 (witness): the recording of day 6 survives the pass and downloads
    as before. *)
Lemma eviction_keeps_downloads_witness :
  let w := Scenario.age_world in
  let res := RecordingManager._cleanup_old_recordings
               Scenario.age_cfg (Scenario.day 8) w in
  Routes.download_recording (RecordingManager.world res) 2
  = Routes.download_recording w 2.
Proof.
  intros w res.
  apply (eviction_keeps_downloads
           Scenario.age_cfg (Scenario.day 8) w res
           (Scenario.rec_day 2 6 "/var/nvr/1/d6.mp4")).
  - by left.
  - apply (bool_decide_unpack _). vm_compute. exact I.
  - apply (bool_decide_unpack _). vm_compute. exact I.
  - reflexivity.
  - vm_compute. by left.
Defined.

(** X13 (witness): the pass that stops at the file of day 6 has unlinked
    the file of day 0 and kept its row. *)
Lemma raised_pass_breaks_downloads_witness :
  let res := RecordingManager._cleanup_old_recordings
               Scenario.age_cfg (Scenario.day 30) Scenario.stuck_world in
  Routes.download_recording (RecordingManager.world res) 1
  = Routes.NotFound "Recording file not found".
Proof.
  intros res.
  apply (raised_pass_breaks_downloads
           Scenario.age_cfg (Scenario.day 30) Scenario.stuck_world res
           (Scenario.rec_day 1 0 "/var/nvr/1/d0.mp4")).
  - by left.
  - apply (bool_decide_unpack _). vm_compute. exact I.
  - reflexivity.
  - vm_compute. by left.
Defined.

(** X14 (witness): a second age pass on the day 0/6/8 example. *)
Lemma cleanup_twice_witness :
  let w1 := RecordingManager.world
              (RecordingManager._cleanup_old_recordings
                 Scenario.age_cfg (Scenario.day 8) Scenario.age_world) in
  RecordingManager._cleanup_old_recordings Scenario.age_cfg (Scenario.day 8) w1
  = RecordingManager.mkResult false w1 [] [].
Proof.
  apply (cleanup_twice Scenario.age_cfg (Scenario.day 8) (Scenario.day 8)
                       Scenario.age_world).
  - apply (bool_decide_unpack _). vm_compute. exact I.
  - reflexivity.
  - reflexivity.
Defined.

(** X15 (witness): the 40/40/40 MB example, after the pass. *)
Lemma storage_info_after_enforce_witness :
  let w1 := RecordingManager.world
              (RecordingManager._enforce_storage_limit
                 Scenario.quota_cfg Scenario.quota_world) in
  let info := RecordingManager.get_storage_info
                Scenario.quota_cfg (RecordingManager.fs w1) in
  (inject_Z (RecordingManager.total_size_bytes info)
   <= RecordingManager.max_size_bytes Scenario.quota_cfg)%Q \/
  RecordingManager.catalog w1 = [].
Proof.
  apply (storage_info_after_enforce Scenario.quota_cfg Scenario.quota_world).
  - repeat constructor.
  - reflexivity.
Defined.

(** X16 (witness): a second capacity pass on the 40/40/40 MB example. *)
Lemma enforce_twice_witness :
  let w1 := RecordingManager.world
              (RecordingManager._enforce_storage_limit
                 Scenario.quota_cfg Scenario.quota_world) in
  RecordingManager._enforce_storage_limit Scenario.quota_cfg w1
  = RecordingManager.mkResult false w1 [] [].
Proof.
  apply (enforce_twice Scenario.quota_cfg Scenario.quota_world).
  - repeat constructor.
  - reflexivity.
Defined.

(** X17 (witness): one round on the 40/40/40 MB example, at a time when
    nothing is past retention. *)
Lemma storage_cleanup_round_converges_witness :
  let w' := (RecordingManager.storage_cleanup_round
               Scenario.quota_cfg (Scenario.day 4) Scenario.quota_world).2 in
  RecordingManager.catalog w' `sublist_of`
    RecordingManager.catalog Scenario.quota_world /\
  (RecordingManager.within_limit Scenario.quota_cfg
     (RecordingManager.storage_usage Scenario.quota_cfg
        (RecordingManager.fs w')) = true \/
   RecordingManager.catalog w' = []).
Proof.
  intros w'.
  destruct (storage_cleanup_round_converges
              Scenario.quota_cfg (Scenario.day 4) Scenario.quota_world)
    as (_ & Hsub & _ & Hlim).
  - apply (bool_decide_unpack _). vm_compute. exact I.
  - repeat constructor.
  - reflexivity.
  - by split.
Defined.

(** * Further properties of the detection engine *)

Section DetectionFilter.
Import DetectionEngine.
Implicit Types (cfg : Config) (names : gmap Z string) (boxes : list Box)
               (events : list Event).

(** An Event as [_detection_thread] may write it for camera [cid]. *)
Lemma detections_of_boxes_accepted cfg names boxes : forall detections,
  detections_of_boxes cfg names boxes = Some detections ->
  Forall (fun d => label d ∈ detection_classes cfg /\
                   (detection_confidence cfg <= confidence d)%Q) detections.
Proof.
  induction boxes as [|box boxes IH]; intros detections Hd; simpl in Hd.
  - injection Hd as <-. constructor.
  - unfold detection_of_box in Hd.
    destruct (names !! cls box) as [lbl|]; [|done].
    destruct (detections_of_boxes cfg names boxes) as [ds|] eqn:Hds.
    + specialize (IH ds eq_refl).
      destruct (bool_decide (lbl ∈ detection_classes cfg)
                && Qle_bool (detection_confidence cfg) (conf box)) eqn:Hok.
      * destruct (xyxy box) as [[[x1 y1] x2] y2]. injection Hd as <-.
        apply andb_true_iff in Hok as [Hl Hc].
        constructor; [|done]. simpl. split.
        -- by apply bool_decide_eq_true in Hl.
        -- by apply Qle_bool_iff.
      * by injection Hd as <-.
    + destruct (bool_decide _ && _); [|done].
      by destruct (xyxy box) as [[[x1 y1] x2] y2].
Qed.

Lemma emitted_accepted cfg names cid (clock : nat -> Z) frame_results :
  Forall (fun e => ev_camera_id e = cid /\
                   ev_event_type e = "object_detection" /\
                   ev_recording_id e = None /\
                   ev_label e ∈ detection_classes cfg /\
                   (detection_confidence cfg <= ev_confidence e)%Q /\
                   exists k, ev_start_time e = clock (2 * k)%nat /\
                             ev_end_time e = clock (2 * k + 1)%nat)
         (emitted cfg names cid clock frame_results).
Proof.
  unfold emitted, detection_step.
  destruct frame_results as [results|]; [|constructor].
  destruct (detections_of_boxes cfg names (all_boxes results))
    as [detections|] eqn:Hd; [|constructor].
  apply detections_of_boxes_accepted in Hd.
  destruct detections as [|d ds]; [constructor|].
  unfold _save_detection_event. rewrite app_nil_l.
  apply Forall_forall. intros e He.
  apply elem_of_lookup_imap in He as (i & d' & -> & Hd').
  apply list_elem_of_lookup_2 in Hd'.
  rewrite Forall_forall in Hd. destruct (Hd d' Hd') as [Hl Hc].
  repeat split; try done. by exists i.
Qed.

(** X20.  The detection thread only ever appends to the event table, and
    every Event it appends for its camera is an object detection without a
    recording, of an allowed label, with a confidence at or above the
    threshold; its start and end times are two consecutive readings of
    the clock of one of the passes, the start time read first. *)
Theorem detection_thread_appends_accepted cfg names cid passes :
  forall events,
  exists new,
    detection_thread cfg names cid passes events = events ++ new /\
    Forall (fun e => ev_camera_id e = cid /\
                     ev_event_type e = "object_detection" /\
                     ev_recording_id e = None /\
                     ev_label e ∈ detection_classes cfg /\
                     (detection_confidence cfg <= ev_confidence e)%Q /\
                     exists clock k,
                       clock ∈ map fst passes /\
                       ev_start_time e = clock (2 * k)%nat /\
                       ev_end_time e = clock (2 * k + 1)%nat) new.
Proof.
  unfold detection_thread.
  induction passes as [|[clock frame_results] passes IH]; intros events.
  - exists []. simpl. by rewrite app_nil_r.
  - cbn [fold_left fst snd]. rewrite detection_step_appends.
    destruct (IH (events ++ emitted cfg names cid clock frame_results))
      as (new & -> & Hnew).
    exists (emitted cfg names cid clock frame_results ++ new).
    rewrite <- app_assoc. split; [done|].
    apply Forall_app. split.
    + eapply Forall_impl; [apply emitted_accepted|].
      intros e (? & ? & ? & ? & ? & k & Hs & He). repeat split; try done.
      exists clock, k. split; [|done]. simpl. by left.
    + eapply Forall_impl; [exact Hnew|].
      intros e (? & ? & ? & ? & ? & c & k & Hin & Hs & He).
      repeat split; try done.
      exists c, k. split; [|done]. simpl. by right.
Qed.

Lemma detections_of_boxes_unknown cfg names boxes box :
  box ∈ boxes -> names !! cls box = None ->
  detections_of_boxes cfg names boxes = None.
Proof.
  induction boxes as [|b boxes IH]; intros Hin Hnone.
  - by apply elem_of_nil in Hin.
  - simpl. apply elem_of_cons in Hin as [<-|Hin].
    + unfold detection_of_box. by rewrite Hnone.
    + rewrite IH by done. by destruct (detection_of_box cfg names b).
Qed.

(** X21.  If the model reports a box whose class id has no name, the
    whole pass writes nothing: the lookup raises before any Event of the
    pass is saved, so the boxes of known classes are lost with it and the
    table stays as it is. *)
Theorem unknown_class_drops_the_pass cfg names cid (clock : nat -> Z) results
    box events :
  box ∈ all_boxes results -> names !! cls box = None ->
  detection_step cfg names cid clock (Some results) events = events.
Proof.
  intros Hin Hnone. unfold detection_step.
  by rewrite (detections_of_boxes_unknown cfg names _ box).
Qed.

End DetectionFilter.

(** X21 (witness): a person and a box of the unnamed class 7 in one
    pass. *)
Lemma unknown_class_drops_the_pass_witness :
  DetectionEngine.detection_step Scenario.det_cfg Scenario.names 1
    (Scenario.clock_at 0)
    (Some [Some [Scenario.person_box;
                 DetectionEngine.mkBox (0, 0, 5, 5)%Q (9 # 10) 7]]) []
  = [].
Proof.
  apply (unknown_class_drops_the_pass Scenario.det_cfg Scenario.names 1
           (Scenario.clock_at 0) _
           (DetectionEngine.mkBox (0, 0, 5, 5)%Q (9 # 10) 7)).
  - simpl. right. by left.
  - reflexivity.
Defined.

Section MotionScore.
Import DetectionEngine.
Context {Image Contour : Type} `{Cv2 Image Contour}.
Implicit Types (cfg : Config) (contours : list Contour).

Lemma Qlt_bool_true (a b : Q) : Qlt_bool a b = true <-> (a < b)%Q.
Proof.
  unfold Qlt_bool. rewrite negb_true_iff. split.
  - intros Hle. apply Qnot_le_lt. intros Hba.
    apply Qle_bool_iff in Hba. congruence.
  - intros Hlt. destruct (Qle_bool b a) eqn:Hle; [|done].
    apply Qle_bool_iff in Hle. by apply Qlt_not_le in Hlt.
Qed.

Lemma motion_area_small cfg contours : forall acc,
  Forall (fun c => (contourArea c <= motion_min_area cfg)%Q) contours ->
  fold_left (fun acc contour =>
               if Qlt_bool (motion_min_area cfg) (contourArea contour)
               then (acc + contourArea contour)%Q else acc)
            contours acc = acc.
Proof.
  induction contours as [|c contours IH]; intros acc Hsmall; [done|].
  apply Forall_cons in Hsmall as [Hc Hsmall]. simpl.
  destruct (Qlt_bool (motion_min_area cfg) (contourArea c)) eqn:Hlt.
  - apply Qlt_bool_true in Hlt. by apply Qlt_not_le in Hlt.
  - by apply IH.
Qed.

(** X22.  Contours no larger than [motion.min_area] count for nothing:
    when all contours between two frames are that small, the motion score
    is 0 and, with a sensitivity that is not negative, no motion is
    reported. *)
Theorem detect_motion_ignores_small_contours cfg (frame1 frame2 : Image) :
  Forall (fun c => (contourArea c <= motion_min_area cfg)%Q)
         (motion_contours frame1 frame2) ->
  (0 <= motion_sensitivity cfg)%Q ->
  let result := (detect_motion cfg (Some frame1) (Some frame2)).1 in
  result.1 = false /\ (result.2 == 0)%Q.
Proof.
  intros Hsmall Hsens result. unfold result, detect_motion.
  fold (motion_contours frame1 frame2). unfold motion_area_of.
  rewrite motion_area_small by done. cbn [fst snd].
  assert (Hzero : ((if 0 <? (shape frame1).1 * (shape frame1).2
                    then 0 / inject_Z ((shape frame1).1 * (shape frame1).2)
                    else 0) == 0)%Q).
  { destruct (_ <? _); [|reflexivity]. unfold Qdiv. apply Qmult_0_l. }
  split; [|exact Hzero].
  destruct (Qlt_bool _ _) eqn:Hlt; [|done].
  apply Qlt_bool_true in Hlt. rewrite Hzero in Hlt.
  by apply Qlt_not_le in Hlt.
Qed.

End MotionScore.

(** X22 (witness): contours of areas 100 and 300 under a minimum of
    500. *)
Lemma detect_motion_ignores_small_contours_witness :
  let result :=
    (@DetectionEngine.detect_motion _ _ (Scenario.cv2_finding [100; 300]%Q)
       Scenario.det_cfg (Some (640, 480)) (Some (640, 480))).1 in
  result.1 = false /\ (result.2 == 0)%Q.
Proof.
  apply (@detect_motion_ignores_small_contours
           _ _ (Scenario.cv2_finding [100; 300]%Q)).
  - repeat constructor; discriminate.
  - discriminate.
Defined.

(** * Properties of the WebSocket manager *)

Section WebSockets.
Import WebSocketManager.
Implicit Types (d : Connections) (ws : WebSocket) (key : Address).

Lemma dict_set_fresh key ws d :
  key ∉ d.*1 -> dict_set key ws d = d ++ [(key, ws)].
Proof.
  induction d as [|[k v] d IH]; intros Hfresh; [done|].
  simpl in *. apply not_elem_of_cons in Hfresh as [Hne Hfresh].
  rewrite bool_decide_eq_false_2 by done. by rewrite IH.
Qed.

Lemma dict_del_fresh key d : key ∉ d.*1 -> dict_del key d = None.
Proof.
  induction d as [|[k v] d IH]; intros Hfresh; [done|].
  simpl in *. apply not_elem_of_cons in Hfresh as [Hne Hfresh].
  rewrite bool_decide_eq_false_2 by done. by rewrite IH.
Qed.

Lemma dict_del_last key ws d :
  key ∉ d.*1 -> dict_del key (d ++ [(key, ws)]) = Some d.
Proof.
  induction d as [|[k v] d IH]; intros Hfresh; simpl.
  - by rewrite bool_decide_eq_true_2.
  - simpl in Hfresh. apply not_elem_of_cons in Hfresh as [Hne Hfresh].
    rewrite bool_decide_eq_false_2 by done. by rewrite IH.
Qed.

Lemma dict_get_last key ws d :
  key ∉ d.*1 -> dict_get key (d ++ [(key, ws)]) = Some ws.
Proof.
  induction d as [|[k v] d IH]; intros Hfresh; simpl.
  - by rewrite bool_decide_eq_true_2.
  - simpl in Hfresh. apply not_elem_of_cons in Hfresh as [Hne Hfresh].
    rewrite bool_decide_eq_false_2 by done. by apply IH.
Qed.

Lemma dict_set_last key ws ws' d :
  key ∉ d.*1 -> dict_set key ws' (d ++ [(key, ws)]) = d ++ [(key, ws')].
Proof.
  induction d as [|[k v] d IH]; intros Hfresh; simpl.
  - by rewrite bool_decide_eq_true_2.
  - simpl in Hfresh. apply not_elem_of_cons in Hfresh as [Hne Hfresh].
    rewrite bool_decide_eq_false_2 by done. by rewrite IH.
Qed.

(** X24.  For a peer address that is not connected, [connect] followed by
    [disconnect] of the same socket gives back the connections as they
    were, the socket is the one found under its address in between, and
    [disconnect] without a [connect] before raises [KeyError]. *)
Theorem connect_then_disconnect d ws :
  client ws ∉ d.*1 ->
  dict_get (client ws) (connect d ws) = Some ws /\
  disconnect (connect d ws) ws = Some d /\
  disconnect d ws = None.
Proof.
  intros Hfresh. unfold connect, disconnect.
  rewrite dict_set_fresh by done.
  auto using dict_get_last, dict_del_last, dict_del_fresh.
Qed.

(** X25.  Connections are kept by peer address, so a second socket from
    an address replaces the first: after both have connected only the
    second is registered, in the place of the first, and when the first
    socket then disconnects it is the registration of the second that is
    removed, whose own disconnect raises [KeyError] afterwards. *)
Theorem second_socket_replaces_first d ws1 ws2 :
  client ws1 = client ws2 -> client ws1 ∉ d.*1 ->
  let both := connect (connect d ws1) ws2 in
  both = d ++ [(client ws2, ws2)] /\
  dict_get (client ws1) both = Some ws2 /\
  disconnect both ws1 = Some d /\
  disconnect d ws2 = None.
Proof.
  intros Hsame Hfresh both. unfold both, connect, disconnect.
  rewrite <- Hsame, (dict_set_fresh _ ws1 d), dict_set_last by done.
  auto using dict_get_last, dict_del_last, dict_del_fresh.
Qed.

Lemma dict_set_keys key ws d :
  (dict_set key ws d).*1 = if bool_decide (key ∈ d.*1) then d.*1
                           else d.*1 ++ [key].
Proof.
  induction d as [|[k v] d IH]; [done|]. cbn [dict_set].
  rewrite (fmap_cons fst (k, v) d). cbn [fst].
  destruct (decide (k = key)) as [->|Hne].
  - rewrite bool_decide_eq_true_2 by done.
    rewrite (bool_decide_eq_true_2 (key ∈ key :: d.*1)) by (by left). done.
  - rewrite bool_decide_eq_false_2 by done.
    rewrite (fmap_cons fst (k, v)), IH. cbn [fst].
    destruct (decide (key ∈ d.*1)) as [Hin|Hnin].
    + rewrite (bool_decide_eq_true_2 (key ∈ d.*1)) by done.
      by rewrite (bool_decide_eq_true_2 (key ∈ k :: d.*1)) by (by right).
    + rewrite (bool_decide_eq_false_2 (key ∈ d.*1)) by done.
      rewrite (bool_decide_eq_false_2 (key ∈ k :: d.*1)); [done|].
      intros [?|?]%elem_of_cons; done.
Qed.

Lemma dict_del_keys key d d' :
  dict_del key d = Some d' -> d'.*1 `sublist_of` d.*1.
Proof.
  revert d'. induction d as [|[k v] d IH]; intros d' Hdel; [done|].
  simpl in Hdel. case_bool_decide.
  - injection Hdel as <-. simpl. by apply sublist_cons.
  - destruct (dict_del key d) as [d0|]; [|done]. injection Hdel as <-.
    simpl. apply sublist_skip. by apply IH.
Qed.

(** [connect] and [disconnect] keep the addresses of the list distinct,
    as the keys of a dict are. *)
Lemma connections_stay_unique d ws :
  NoDup d.*1 ->
  NoDup (connect d ws).*1 /\
  (forall d', disconnect d ws = Some d' -> NoDup d'.*1).
Proof.
  intros Hnd. split.
  - unfold connect. rewrite dict_set_keys. case_bool_decide as Hin; [done|].
    apply NoDup_app. split; [done|]. split; [|apply NoDup_singleton].
    intros k Hk ->%list_elem_of_singleton. done.
  - intros d' Hdel. eapply sublist_NoDup; [exact Hnd|].
    by eapply dict_del_keys.
Qed.

(** X26.  [send_message] sends the text once to every registered socket,
    in the order of registration, as long as the sends return; it stops at
    the first socket whose send raises, and the sockets registered after
    that one are sent nothing. *)
Theorem send_message_until_error (accepts : WebSocket -> bool) d :
  let reached := take_while (fun kv => accepts kv.2) d in
  send_message accepts d
  = (socket <$> reached.*2, negb (forallb (fun kv => accepts kv.2) d)).
Proof.
  induction d as [|[k ws] d IH]; [done|]. simpl.
  destruct (accepts ws); [|done]. simpl in IH. rewrite IH. done.
Qed.

End WebSockets.

(** X24 (witness). *)
Lemma connect_then_disconnect_witness :
  WebSocketManager.disconnect
    (WebSocketManager.connect [(("10.0.0.21", 40000), Scenario.peer_b)]
                              Scenario.peer_a1)
    Scenario.peer_a1
  = Some [(("10.0.0.21", 40000), Scenario.peer_b)].
Proof.
  destruct (connect_then_disconnect
              [(("10.0.0.21", 40000), Scenario.peer_b)] Scenario.peer_a1)
    as (_ & Hround & _); [|exact Hround].
  apply (bool_decide_unpack _). vm_compute. exact I.
Defined.

(** X25 (witness): the second socket of 10.0.0.20:51000 is unregistered
    by the disconnect of the first. *)
Lemma second_socket_replaces_first_witness :
  let both := WebSocketManager.connect
                (WebSocketManager.connect [] Scenario.peer_a1)
                Scenario.peer_a2 in
  WebSocketManager.dict_get ("10.0.0.20", 51000) both = Some Scenario.peer_a2 /\
  WebSocketManager.disconnect both Scenario.peer_a1 = Some [].
Proof.
  intros both.
  destruct (second_socket_replaces_first [] Scenario.peer_a1 Scenario.peer_a2)
    as (_ & Hget & Hdel & _).
  - reflexivity.
  - apply not_elem_of_nil.
  - split; [exact Hget | exact Hdel].
Defined.
